(** * simple-http-ws-proxy: a shallow embedding of the WebSocket relay handler

    The development follows [scripts/simple-http-ws-proxy.py]:
    - [PyStr]: the fragment of Python's [str] the handler uses
      ([lower], [encode], f-string concatenation);
    - [Headers]: the header store ([email.message.Message]) as the
      handler reads it ([get], [__iter__], [__getitem__]);
    - the socket world, an error/state monad for the handler body, and
      [do_GET] / [handle_websocket] written statement by statement;
    - the properties of the classifier, the handshake replay and the
      relay loop. *)

From Stdlib Require Import List String Ascii Strings.Byte Bool NArith Arith Lia.
Import ListNotations.

(* ------------------------------------------------------------------ *)
(** ** Python strings

    [http.server] decodes the request line and the headers as
    ISO-8859-1, so every code point of a header string is below 256:
    a Python [str] of the handler is a [string] of 8-bit characters. *)

Module PyStr.

Open Scope N_scope.

(** [str.lower] on one ISO-8859-1 code point: A-Z and the accented
    capitals U+00C0..U+00DE (U+00D7, the multiplication sign, apart)
    move 32 places up; everything else is unchanged. *)
Definition lower_char (c : ascii) : ascii :=
  let n := N_of_ascii c in
  if ((65 <=? n) && (n <=? 90))
     || ((192 <=? n) && (n <=? 222) && negb (n =? 215))
  then ascii_of_N (n + 32)
  else c.

Fixpoint lower (s : string) : string :=
  match s with
  | EmptyString => EmptyString
  | String c s' => String (lower_char c) (lower s')
  end.

Definition byte_of_N (n : N) : byte := byte_of_ascii (ascii_of_N n).

(** [str.encode()] (UTF-8) on one code point below 256: one byte
    below 128, otherwise the two bytes 110000xx 10xxxxxx. *)
Definition encode_char (c : ascii) : list byte :=
  let n := N_of_ascii c in
  if n <? 128 then [byte_of_N n]
  else [byte_of_N (N.lor 192 (N.shiftr n 6));
        byte_of_N (N.lor 128 (N.land n 63))].

Fixpoint encode (s : string) : list byte :=
  match s with
  | EmptyString => []
  | String c s' => encode_char c ++ encode s'
  end.

Definition CRLF : string := String "013" (String "010" EmptyString).

End PyStr.

(* ------------------------------------------------------------------ *)
(** ** The header store

    [self.headers] is an [http.client.HTTPMessage]; it keeps the header
    lines as an ordered list of (name, value) pairs, duplicates
    included. *)

Module Headers.

Definition t := list (string * string).

(** [Message.get(name, failobj)]: the value of the FIRST header whose
    name equals [name] after lowercasing both. *)
Fixpoint get_opt (h : t) (name : string) : option string :=
  match h with
  | [] => None
  | (k, v) :: h' =>
      if String.eqb (PyStr.lower k) (PyStr.lower name) then Some v
      else get_opt h' name
  end.

Definition get (h : t) (name failobj : string) : string :=
  match get_opt h name with
  | Some v => v
  | None => failobj
  end.

(** [Message.__iter__]: the field names in order, one per header line. *)
Definition iter (h : t) : list string := map fst h.

(** [Message.__getitem__] is [get(name)] with [None] for a missing
    header; inside an f-string [None] prints as the text None. *)
Definition getitem_fmt (h : t) (name : string) : string :=
  match get_opt h name with
  | Some v => v
  | None => "None"%string
  end.

End Headers.

(** The parsed request as the handler sees it: [self.command],
    [self.path], [self.request_version], [self.headers]. *)
Record request := mkRequest {
  command : string;
  path : string;
  request_version : string;
  headers : Headers.t
}.

(* ------------------------------------------------------------------ *)
(** ** Sockets and the environment *)

Inductive sock := client | backend.

Definition sock_eqb (a b : sock) : bool :=
  match a, b with
  | client, client | backend, backend => true
  | _, _ => false
  end.

(** The fixed pairing client <-> backend. *)
Definition partner (s : sock) : sock :=
  match s with client => backend | backend => client end.

(** What [socket.send] does with one buffer: the kernel takes all of it,
    or only the first [n] bytes (and [send] returns [n]), or the call
    raises. *)
Inductive send_res := SendsAll | SendsOnly (n : nat) | SendRaises.

(** What [recv(4096)] returns on an open socket: a chunk (empty at end
    of stream), or the call raises. *)
Inductive recv_res := RecvBytes (d : list byte) | RecvRaises.

(** What [sendall] does on an open socket: everything goes out, or the
    call raises after [n] bytes went out. *)
Inductive sendall_res := SentAll | SendallRaises (n : nat).

(** One return of [select.select(sockets, [], sockets, 1.0)] together
    with what the kernel answers to the calls made in that pass. *)
Record tick := mkTick {
  ready_r : sock -> bool;
  ready_x : sock -> bool;
  recv_out : sock -> recv_res;
  sendall_out : sock -> sendall_res
}.

Record env := mkEnv {
  connect_ok : bool;              (* does [backend.connect] succeed *)
  hs_send : nat -> send_res;      (* outcome of the i-th handshake [send], from 0 *)
  ticks : list tick;              (* the passes of the relay loop *)
  reply_ok : bool                 (* does writing the error reply to the client succeed *)
}.

(** Calls the handler makes, kept oldest first. *)
Inductive call :=
| CSocket
| CConnect
| CSend (d : list byte)
| CSetblocking (s : sock)
| CSelect (watched : list sock)
| CRecv (s : sock)
| CSendall (s : sock) (d : list byte)
| CClose (s : sock)
| CSendError (code : nat)
| CHandleWebsocket
| CStaticGET.

Record world := mkWorld {
  sockets : list sock;            (* the local list [sockets] *)
  other : option sock;            (* the local [other]; [None] while unbound *)
  is_open : sock -> bool;         (* the socket object exists and [close()] was not called on it *)
  nonblocking : sock -> bool;
  sent : sock -> list byte;       (* bytes accepted for transmission on each socket *)
  rcvd : sock -> list byte;       (* bytes [recv] returned on each socket *)
  trace : list call;
  close_connection : bool         (* [self.close_connection] *)
}.

Definition upd {A} (f : sock -> A) (s : sock) (v : A) : sock -> A :=
  fun x => if sock_eqb x s then v else f x.

(** The state on entry to [do_GET]: the accepted client socket is open
    and blocking, no backend socket exists yet. *)
Definition entry (cc : bool) : world :=
  {| sockets := []; other := None;
     is_open := fun s => sock_eqb s client;
     nonblocking := fun _ => false;
     sent := fun _ => []; rcvd := fun _ => [];
     trace := []; close_connection := cc |}.

(* ------------------------------------------------------------------ *)
(** ** The handler monad: state plus Python exceptions *)

(** [socket.error] is [OSError]; the two others are the built-in
    exceptions the handler body can raise besides it. *)
Inductive exn := OSError | UnboundLocalError | ValueError.

Inductive result (A : Type) := Ok (a : A) | Raise (e : exn).
Arguments Ok {A} a.
Arguments Raise {A} e.

Definition M (A : Type) := world -> result A * world.

Definition ret {A} (a : A) : M A := fun w => (Ok a, w).

Definition bind {A B} (m : M A) (k : A -> M B) : M B :=
  fun w => match m w with
           | (Ok a, w') => k a w'
           | (Raise e, w') => (Raise e, w')
           end.

Definition raise {A} (e : exn) : M A := fun w => (Raise e, w).

(** [try: m except <catches>: h]. *)
Definition try_except {A} (catches : exn -> bool) (m : M A) (h : exn -> M A) : M A :=
  fun w => match m w with
           | (Ok a, w') => (Ok a, w')
           | (Raise e, w') => if catches e then h e w' else (Raise e, w')
           end.

Declare Scope py_scope.
Delimit Scope py_scope with py.
Notation "x <- m ;; k" := (bind m (fun x => k))
  (at level 61, m at next level, right associativity) : py_scope.
Notation "m ;; k" := (bind m (fun _ => k))
  (at level 61, right associativity) : py_scope.
Open Scope py_scope.

Definition socket_error (e : exn) : bool :=
  match e with OSError => true | _ => false end.

Definition any_exception (e : exn) : bool := true.

Fixpoint for_each {A} (l : list A) (body : A -> M unit) : M unit :=
  match l with
  | [] => ret tt
  | x :: l' => body x ;; for_each l' body
  end.

(** *** State access *)

Definition log (c : call) : M unit :=
  fun w => (Ok tt,
            {| sockets := sockets w; other := other w; is_open := is_open w;
               nonblocking := nonblocking w; sent := sent w; rcvd := rcvd w;
               trace := trace w ++ [c]; close_connection := close_connection w |}).

Definition set_sockets (l : list sock) : M unit :=
  fun w => (Ok tt,
            {| sockets := l; other := other w; is_open := is_open w;
               nonblocking := nonblocking w; sent := sent w; rcvd := rcvd w;
               trace := trace w; close_connection := close_connection w |}).

Definition set_other (o : sock) : M unit :=
  fun w => (Ok tt,
            {| sockets := sockets w; other := Some o; is_open := is_open w;
               nonblocking := nonblocking w; sent := sent w; rcvd := rcvd w;
               trace := trace w; close_connection := close_connection w |}).

Definition set_open (s : sock) (b : bool) : M unit :=
  fun w => (Ok tt,
            {| sockets := sockets w; other := other w; is_open := upd (is_open w) s b;
               nonblocking := nonblocking w; sent := sent w; rcvd := rcvd w;
               trace := trace w; close_connection := close_connection w |}).

Definition set_nonblocking (s : sock) : M unit :=
  fun w => (Ok tt,
            {| sockets := sockets w; other := other w; is_open := is_open w;
               nonblocking := upd (nonblocking w) s true; sent := sent w; rcvd := rcvd w;
               trace := trace w; close_connection := close_connection w |}).

Definition transmit (s : sock) (d : list byte) : M unit :=
  fun w => (Ok tt,
            {| sockets := sockets w; other := other w; is_open := is_open w;
               nonblocking := nonblocking w; sent := upd (sent w) s (sent w s ++ d);
               rcvd := rcvd w;
               trace := trace w; close_connection := close_connection w |}).

Definition deliver (s : sock) (d : list byte) : M unit :=
  fun w => (Ok tt,
            {| sockets := sockets w; other := other w; is_open := is_open w;
               nonblocking := nonblocking w; sent := sent w;
               rcvd := upd (rcvd w) s (rcvd w s ++ d);
               trace := trace w; close_connection := close_connection w |}).

Definition set_close_connection (b : bool) : M unit :=
  fun w => (Ok tt,
            {| sockets := sockets w; other := other w; is_open := is_open w;
               nonblocking := nonblocking w; sent := sent w; rcvd := rcvd w;
               trace := trace w; close_connection := b |}).

Definition get_sockets : M (list sock) := fun w => (Ok (sockets w), w).

Definition get_open (s : sock) : M bool := fun w => (Ok (is_open w s), w).

(** Whether the descriptor behind a socket object still works.
    [close()] on the backend releases the descriptor.  The client is
    [self.request]: the handler's [rfile], made by [makefile], holds
    a reference to it, so [close()] only marks the object closed and
    the descriptor goes on serving [recv] and [sendall]. *)
Definition fd_usable (w : world) (s : sock) : bool :=
  match s with
  | client => true
  | backend => is_open w backend
  end.

Definition get_usable (s : sock) : M bool := fun w => (Ok (fd_usable w s), w).

(** Reading the local [other]: unbound raises [UnboundLocalError]. *)
Definition get_other : M sock :=
  fun w => match other w with
           | Some o => (Ok o, w)
           | None => (Raise UnboundLocalError, w)
           end.

(** *** Python list operations on [sockets] *)

Definition mem (s : sock) (l : list sock) : bool := existsb (sock_eqb s) l.

(** [list.remove(x)] drops the first occurrence. *)
Fixpoint remove_first (s : sock) (l : list sock) : list sock :=
  match l with
  | [] => []
  | x :: l' => if sock_eqb x s then l' else x :: remove_first s l'
  end.

(** [s in sockets]. *)
Definition sockets_contains (s : sock) : M bool :=
  fun w => (Ok (mem s (sockets w)), w).

(** [sockets.remove(s)]: [ValueError] when [s] is not in the list. *)
Definition sockets_remove (s : sock) : M unit :=
  l <- get_sockets ;;
  if mem s l then set_sockets (remove_first s l) else raise ValueError.

(** *** Socket calls *)

(** [socket.socket(AF_INET, SOCK_STREAM)], bound to [backend]. *)
Definition new_backend : M unit := log CSocket ;; set_open backend true.

(** [backend.connect(('127.0.0.1', 8081))]. *)
Definition connect (e : env) : M unit :=
  log CConnect ;;
  if connect_ok e then ret tt else raise OSError.

(** [backend.send(d)], the [i]-th of the handshake; its return value is
    dropped by the handler. *)
Definition send (e : env) (i : nat) (d : list byte) : M unit :=
  log (CSend d) ;;
  match hs_send e i with
  | SendsAll => transmit backend d
  | SendsOnly n => transmit backend (firstn n d)
  | SendRaises => raise OSError
  end.

Definition setblocking0 (s : sock) : M unit :=
  log (CSetblocking s) ;; set_nonblocking s.

(** [s.recv(4096)]: without a usable descriptor the call raises. *)
Definition recv (t : tick) (s : sock) : M (list byte) :=
  log (CRecv s) ;;
  o <- get_usable s ;;
  if o then
    match recv_out t s with
    | RecvBytes d => deliver s d ;; ret d
    | RecvRaises => raise OSError
    end
  else raise OSError.

(** [o.sendall(d)]. *)
Definition sendall (t : tick) (o : sock) (d : list byte) : M unit :=
  log (CSendall o d) ;;
  b <- get_usable o ;;
  if b then
    match sendall_out t o with
    | SentAll => transmit o d
    | SendallRaises n => transmit o (firstn n d) ;; raise OSError
    end
  else raise OSError.

(** [s.close()]; closing twice is harmless. *)
Definition close (s : sock) : M unit := log (CClose s) ;; set_open s false.

(** [select.select(sockets, [], sockets, 1.0)]: the ready sockets among
    the ones passed in, in the order they were passed. *)
Definition select (t : tick) : M (list sock * list sock) :=
  l <- get_sockets ;;
  log (CSelect l) ;;
  ret (filter (ready_r t) l, filter (ready_x t) l).

(** [self.send_error(502, "Bad Gateway")] of [BaseHTTPRequestHandler]:
    the error response carries [Connection: close], which sets
    [close_connection], so the base handler closes the client
    connection when [do_GET] returns; then the response is written to
    the client socket, and that write can raise. *)
Definition send_error (e : env) (code : nat) : M unit :=
  log (CSendError code) ;;
  set_close_connection true ;;
  if reply_ok e then ret tt else raise OSError.

(** [super().do_GET()], the static file handler of the library. *)
Definition static_do_GET : M unit := log CStaticGET.

(* ------------------------------------------------------------------ *)
(** ** The handler *)

Open Scope string_scope.

(** [f"{self.command} {self.path} {self.request_version}\r\n"] *)
Definition request_line (r : request) : string :=
  command r ++ " " ++ path r ++ " " ++ request_version r ++ PyStr.CRLF.

(** [f"{header}: {self.headers[header]}\r\n"] *)
Definition header_line (h : Headers.t) (header : string) : string :=
  header ++ ": " ++ Headers.getitem_fmt h header ++ PyStr.CRLF.

(** [for header in self.headers: backend.send(header_line.encode())];
    [i] numbers the [send] calls for the environment. *)
Fixpoint send_headers (e : env) (h : Headers.t) (i : nat) (names : list string) : M unit :=
  match names with
  | [] => ret tt
  | header :: rest =>
      send e i (PyStr.encode (header_line h header)) ;;
      send_headers e h (S i) rest
  end.

(** Lines 33-41: the request line, every header, the blank line. *)
Definition forward_handshake (r : request) (e : env) : M unit :=
  send e 0 (PyStr.encode (request_line r)) ;;
  send_headers e (headers r) 1 (Headers.iter (headers r)) ;;
  send e (S (List.length (headers r))) (PyStr.encode PyStr.CRLF).

(** Lines 55-57, the body of [for s in exceptional]. *)
Definition handle_exceptional (s : sock) : M unit :=
  sockets_remove s ;; close s.

(** Lines 60-77, the body of [for s in readable].  [other] is assigned
    in the data branch only and read in the end-of-stream branch. *)
Definition handle_readable (t : tick) (s : sock) : M unit :=
  try_except socket_error
    (data <- recv t s ;;
     match data with
     | _ :: _ =>
         set_other (if sock_eqb s client then backend else client) ;;
         o <- get_other ;;
         sendall t o data
     | [] =>
         sockets_remove s ;;
         close s ;;
         o <- get_other ;;
         b <- sockets_contains o ;;
         if b then sockets_remove o ;; close o else ret tt
     end)
    (fun _ =>
       b <- sockets_contains s ;;
       if b then sockets_remove s ;; close s else ret tt).

(** Lines 53-77, one pass of the [while] body. *)
Definition relay_pass (t : tick) : M unit :=
  r <- select t ;;
  for_each (snd r) handle_exceptional ;;
  for_each (fst r) (handle_readable t).

(** How a run of the loop over a finite schedule ends: the condition
    [while sockets] became false, or the schedule is used up and the
    loop is waiting in [select] for the next pass. *)
Inductive loop_end := LoopDone | LoopWaiting.

(** Lines 52-77. *)
Fixpoint relay_loop (ts : list tick) : M loop_end :=
  l <- get_sockets ;;
  match l with
  | [] => ret LoopDone
  | _ :: _ =>
      match ts with
      | [] => ret LoopWaiting
      | t :: ts' => relay_pass t ;; relay_loop ts'
      end
  end.

Inductive outcome :=
| Finished                 (* the [try] body ran to its end *)
| GatewayError (e : exn)   (* the [except Exception] branch ran *)
| Relaying                 (* still inside the relay loop *)
| ServedStatic.            (* [super().do_GET()] *)

(** Lines 29-31. *)
Definition open_backend (e : env) : M unit := new_backend ;; connect e.

(** Lines 43-51: both sockets non-blocking, [sockets = [client, backend]]. *)
Definition start_relay : M unit :=
  setblocking0 client ;;
  setblocking0 backend ;;
  set_sockets [client; backend].

(** Lines 26-84. *)
Definition handle_websocket (r : request) (e : env) : M outcome :=
  try_except any_exception
    (open_backend e ;;
     forward_handshake r e ;;
     start_relay ;;
     x <- relay_loop (ticks e) ;;
     match x with
     | LoopDone => set_close_connection false ;; ret Finished
     | LoopWaiting => ret Relaying
     end)
    (fun ex => send_error e 502 ;; ret (GatewayError ex)).

(** Lines 18-24. *)
Definition do_GET (r : request) (e : env) : M outcome :=
  if String.eqb (PyStr.lower (Headers.get (headers r) "Upgrade" EmptyString)) "websocket"
  then log CHandleWebsocket ;; handle_websocket r e
  else static_do_GET ;; ret ServedStatic.

(** The relay from the point where the loop starts (line 51 done):
    both sockets open, non-blocking and watched, [other] unbound,
    [hs] already sent to the backend. *)
Definition relay_start (hs : list byte) : world :=
  {| sockets := [client; backend]; other := None;
     is_open := fun _ => true;
     nonblocking := fun _ => true;
     sent := upd (fun _ => []) backend hs; rcvd := fun _ => [];
     trace := []; close_connection := true |}.

Close Scope string_scope.

(* ------------------------------------------------------------------ *)
(** ** Predicates used in the statements *)

(** [m] keeps [P], whether it returns or raises. *)
Definition preserves {A} (P : world -> Prop) (m : M A) : Prop :=
  forall w, P w -> P (snd (m w)).

(** *** The watched list and the open sockets

    Inside the loop every [remove] is paired with a [close]: the
    watched list has no duplicates and holds exactly the open sockets. *)
Definition wf (w : world) : Prop :=
  NoDup (sockets w) /\ forall s, mem s (sockets w) = is_open w s.

(** The calls [handle_websocket] itself can make: everything but the
    two entries [do_GET] writes when it picks a branch. *)
Definition socket_call (c : call) : Prop :=
  match c with
  | CHandleWebsocket | CStaticGET => False
  | _ => True
  end.

(** The trace grew from [l0] by socket calls only. *)
Definition grew_from (l0 : list call) (w : world) : Prop :=
  exists calls, trace w = l0 ++ calls /\ Forall socket_call calls.

(** *** The classifier, in the words of the specification

    "Case-insensitive match of the [Upgrade] header value against
    [websocket]": header names and tokens are compared after folding
    the ASCII letters A-Z, and the header value of a request is the
    value of its first header line of that name. *)
Definition ascii_fold (c : ascii) : ascii :=
  let n := N_of_ascii c in
  if ((65 <=? n) && (n <=? 90))%N then ascii_of_N (n + 32) else c.

Fixpoint fold_case (s : string) : string :=
  match s with
  | EmptyString => EmptyString
  | String c s' => String (ascii_fold c) (fold_case s')
  end.

Definition ci_eqb (a b : string) : bool :=
  String.eqb (fold_case a) (fold_case b).

Fixpoint first_header (name : string) (h : Headers.t) : option string :=
  match h with
  | [] => None
  | (k, v) :: h' => if ci_eqb k name then Some v else first_header name h'
  end.

Definition upgrade_matches (r : request) : bool :=
  match first_header "Upgrade" (headers r) with
  | Some v => ci_eqb v "websocket"
  | None => false
  end.

Fixpoint ascii_only (s : string) : Prop :=
  match s with
  | EmptyString => True
  | String c s' => (N_of_ascii c < 128)%N /\ ascii_only s'
  end.

(** [x] is the result of a [do_GET] from [w] that went to the static
    file handler and did nothing else. *)
Definition served_static (w : world) (x : result outcome * world) : Prop :=
  x = (Ok ServedStatic, snd (log CStaticGET w)).

(** [x] is the result of a [do_GET] from [w] that went to
    [handle_websocket] and never to the static file handler. *)
Definition relayed (w : world) (x : result outcome * world) : Prop :=
  exists calls,
    trace (snd x) = trace w ++ CHandleWebsocket :: calls /\ Forall socket_call calls.

(** A request with a list-valued Upgrade header, and the environment
    in which the backend accepts everything and nothing happens. *)
Definition req_keep_alive : request :=
  mkRequest "GET" "/ws" "HTTP/1.1"
    [("Host", "example.org"); ("Upgrade", "websocket, keep-alive")]%string.

Definition quiet_env : env :=
  {| connect_ok := true; hs_send := fun _ => SendsAll; ticks := []; reply_ok := true |}.

(** Nothing listens on the backend port. *)
Definition refused_env : env :=
  {| connect_ok := false; hs_send := fun _ => SendsAll; ticks := []; reply_ok := true |}.

Definition req_ws : request :=
  mkRequest "GET" "/ws" "HTTP/1.1"
    [("Host", "example.org"); ("Upgrade", "websocket")]%string.

(** *** Tear-down of one socket

    [x] is the result of a loop body run from [w] that returned
    normally, removed [s] from the watched list and closed it, and left
    the partner of [s] as it was: watched if it was watched, open if it
    was open. *)
Definition dropped_alone (s : sock) (w : world) (x : result unit * world) : Prop :=
  fst x = Ok tt
  /\ sockets (snd x) = remove_first s (sockets w)
  /\ mem s (sockets (snd x)) = false
  /\ is_open (snd x) s = false
  /\ mem (partner s) (sockets (snd x)) = mem (partner s) (sockets w)
  /\ is_open (snd x) (partner s) = is_open w (partner s).

(** [sendall] on [o] raises: the descriptor of [o] is gone, or the
    kernel reports an error. *)
Definition sendall_fails (t : tick) (w : world) (o : sock) : Prop :=
  fd_usable w o = false \/ exists n, sendall_out t o = SendallRaises n.

(** Both sockets of the pair are gone: none is watched, both are closed. *)
Definition both_torn_down (w : world) : Prop :=
  sockets w = [] /\ is_open w client = false /\ is_open w backend = false.

(** *** Schedules used as concrete inputs *)

(** Nothing is ready: [select] timed out. *)
Definition idle_tick : tick :=
  {| ready_r := fun _ => false; ready_x := fun _ => false;
     recv_out := fun _ => RecvRaises; sendall_out := fun _ => SentAll |}.

(** [s] is readable and its [recv] returns [d]; writes succeed. *)
Definition read_tick (s : sock) (d : list byte) : tick :=
  {| ready_r := fun x => sock_eqb x s; ready_x := fun _ => false;
     recv_out := fun _ => RecvBytes d; sendall_out := fun _ => SentAll |}.

(** [s] is readable and at end of stream. *)
Definition eof_tick (s : sock) : tick := read_tick s [].

(** [s] is readable and its [recv] raises. *)
Definition read_error_tick (s : sock) : tick :=
  {| ready_r := fun x => sock_eqb x s; ready_x := fun _ => false;
     recv_out := fun _ => RecvRaises; sendall_out := fun _ => SentAll |}.

(** [s] is readable with [d]; forwarding [d] raises after [n] bytes. *)
Definition write_error_tick (s : sock) (d : list byte) (n : nat) : tick :=
  {| ready_r := fun x => sock_eqb x s; ready_x := fun _ => false;
     recv_out := fun _ => RecvBytes d; sendall_out := fun _ => SendallRaises n |}.

(** [s] is reported in the exceptional list. *)
Definition exceptional_tick (s : sock) : tick :=
  {| ready_r := fun _ => false; ready_x := fun x => sock_eqb x s;
     recv_out := fun _ => RecvRaises; sendall_out := fun _ => SentAll |}.

(** The backend is reachable and takes the handshake whole; the relay
    then sees the passes [ts]. *)
Definition env_of (ts : list tick) : env :=
  {| connect_ok := true; hs_send := fun _ => SendsAll; ticks := ts; reply_ok := true |}.

(** The backend is reachable, the first handshake [send] raises. *)
Definition broken_pipe_env : env :=
  {| connect_ok := true; hs_send := fun _ => SendRaises; ticks := []; reply_ok := true |}.

(** Both socket objects are closed. *)
Definition both_closed (w : world) : Prop :=
  is_open w client = false /\ is_open w backend = false.

(** Both socket objects are open. *)
Definition both_open (w : world) : Prop :=
  forall s, is_open w s = true.

(** *** The relay while only the client talks *)




(** *** The handshake, in the words of the specification

    The request line, then each header as [Name: Value] CRLF in the
    original order with its own name and value, then a blank line. *)
Definition spec_header_line (kv : string * string) : string :=
  (fst kv ++ ": " ++ snd kv ++ PyStr.CRLF)%string.

Fixpoint spec_header_block (h : Headers.t) : string :=
  match h with
  | [] => EmptyString
  | kv :: h' => (spec_header_line kv ++ spec_header_block h')%string
  end.

Definition handshake_text (r : request) : string :=
  (command r ++ " " ++ path r ++ " " ++ request_version r ++ PyStr.CRLF
   ++ spec_header_block (headers r) ++ PyStr.CRLF)%string.

(** No two header lines share a name, compared the way the header
    store compares names. *)
Definition distinct_names (h : Headers.t) : Prop :=
  NoDup (map (fun kv => PyStr.lower (fst kv)) h).

(** An upgrade request offering two subprotocols on two header lines,
    and the request the backend is sent instead. *)
Definition req_two_protocols : request :=
  mkRequest "GET" "/ws" "HTTP/1.1"
    [("Upgrade", "websocket");
     ("Sec-WebSocket-Protocol", "chat");
     ("Sec-WebSocket-Protocol", "superchat")]%string.

Definition req_first_protocol_twice : request :=
  mkRequest "GET" "/ws" "HTTP/1.1"
    [("Upgrade", "websocket");
     ("Sec-WebSocket-Protocol", "chat");
     ("Sec-WebSocket-Protocol", "chat")]%string.

(** Both sockets are readable and both at end of stream. *)
Definition both_eof_tick : tick :=
  {| ready_r := fun _ => true; ready_x := fun _ => false;
     recv_out := fun _ => RecvBytes []; sendall_out := fun _ => SentAll |}.

(* ------------------------------------------------------------------ *)
(** ** Request logging (lines 86-92) *)

Open Scope string_scope.

(** [s.startswith(p)] *)
Fixpoint startswith (s p : string) {struct p} : bool :=
  match p with
  | EmptyString => true
  | String a p' =>
      match s with
      | EmptyString => false
      | String b s' => Ascii.eqb b a && startswith s' p'
      end
  end.

(** The list literal of line 88. *)
Definition quiet_prefixes : list string := ["/pkg/"; "/assets/"; ".js"; ".wasm"].

Definition LF : string := String "010" EmptyString.

(** ["%s - - [%s] %s\n" % (host, date, message)] *)
Definition log_line (host date message : string) : string :=
  host ++ " - - [" ++ date ++ "] " ++ message ++ LF.

(** What one call of [log_message] does: it raises, or it writes the
    given texts to [sys.stderr]. *)
Inductive log_result := LogRaises | LogWrites (texts : list string).

(** Lines 86-92.  [path] is [self.path], [None] while the attribute is
    not set (reading it raises [AttributeError]); [host] is
    [self.client_address[0]], [date] is [self.log_date_time_string()],
    [message] is [format % args]. *)
Definition log_message (path : option string) (host date message : string) : log_result :=
  match path with
  | None => LogRaises
  | Some p =>
      if negb (existsb (fun q => startswith p q) quiet_prefixes)
      then LogWrites [log_line host date message]
      else LogWrites []
  end.

Close Scope string_scope.

(* ------------------------------------------------------------------ *)
(** ** Further predicates on the relay *)

(** Run from a state where the watched list holds exactly the open
    sockets, [m] keeps that, never unbinds [other], and can end only
    normally, with the error of reading the unbound [other] (only
    while [other] is in fact still unbound), or with the [ValueError]
    of [sockets.remove] - never with a socket error. *)
Definition contained {A} (m : M A) : Prop :=
  forall w, wf w ->
    wf (snd (m w))
    /\ (other w <> None -> other (snd (m w)) <> None)
    /\ match fst (m w) with
       | Ok _ => True
       | Raise ex =>
           (ex = UnboundLocalError /\ other (snd (m w)) = None) \/ ex = ValueError
       end.

(** Forwarding from [s] to its partner since the state in which the
    partner had been sent [sb0] and [s] had been read up to [rc0]: the
    partner was sent [X], [s] was read [X ++ Y], and [Y] is empty as
    long as [s] is open - bytes are missing only after a failed write,
    which closes [s]. *)
Definition forwarded_from (s : sock) (sb0 rc0 : list byte) (w : world) : Prop :=
  exists X Y,
    rcvd w s = rc0 ++ X ++ Y
    /\ sent w (partner s) = sb0 ++ X
    /\ (is_open w s = true -> Y = []).

(** The relay after a first chunk went from the client to the backend:
    both sockets watched and open, [other] bound to the backend. *)
Definition relay_after_chunk : world :=
  {| sockets := [client; backend]; other := Some backend;
     is_open := fun _ => true;
     nonblocking := fun _ => true;
     sent := fun _ => []; rcvd := fun _ => [];
     trace := []; close_connection := true |}.

(** *** The handshake as the code sends it *)

(** The buffers handed to [backend.send], in call order (lines 35, 40,
    41): the request line, one line per header name with the value
    [self.headers[name]], the blank line. *)
Definition handshake_lines (r : request) : list (list byte) :=
  PyStr.encode (request_line r)
  :: map (fun name => PyStr.encode (header_line (headers r) name))
         (Headers.iter (headers r))
  ++ [PyStr.encode PyStr.CRLF].

(** What [send] transmits of buffer [d] under outcome [o]. *)
Definition accepted (o : send_res) (d : list byte) : list byte :=
  match o with
  | SendsAll => d
  | SendsOnly n => firstn n d
  | SendRaises => []
  end.

(** What is transmitted of the buffers [lines], sent as the [i]-th and
    following [send] calls. *)
Fixpoint taken (e : env) (i : nat) (lines : list (list byte)) : list byte :=
  match lines with
  | [] => []
  | d :: rest => accepted (hs_send e i) d ++ taken e (S i) rest
  end.


(** A schedule of [n] passes in which [select] times out. *)
Definition idle_passes (n : nat) : list tick := repeat idle_tick n.

(** *** Counting calls in a trace *)

(** Calls made once the backend connection exists: anything but
    creating a socket, connecting, and the two entries of [do_GET]. *)
Definition after_connect_call (c : call) : Prop :=
  match c with
  | CSocket | CConnect | CHandleWebsocket | CStaticGET => False
  | _ => True
  end.

(** The trace grew from [l0] by such calls only. *)
Definition grew_connected (l0 : list call) (w : world) : Prop :=
  exists calls, trace w = l0 ++ calls /\ Forall after_connect_call calls.

Definition is_close (s : sock) (c : call) : bool :=
  match c with
  | CClose x => sock_eqb x s
  | _ => false
  end.

(** How often [s.close()] appears in [l]. *)
Definition closes (s : sock) (l : list call) : nat :=
  List.length (filter (is_close s) l).

(** Since the state with trace [t0] and open flags [o0]: a socket has
    been closed by one call if it went from open to closed and by none
    otherwise, and no socket has been opened. *)
Definition closed_once (t0 : list call) (o0 : sock -> bool) (w : world) : Prop :=
  exists calls,
    trace w = t0 ++ calls
    /\ forall s,
         closes s calls = (if o0 s && negb (is_open w s) then 1 else 0)
         /\ (is_open w s = true -> o0 s = true).

(** The same inside the [for s in readable] loop, with [rem] the
    sockets still to be handled in this pass: nothing is missing yet
    from what was read on [s] if [s] is open or still has its turn. *)
Definition forwarded_pending
    (s : sock) (sb0 rc0 : list byte) (rem : list sock) (w : world) : Prop :=
  wf w
  /\ exists X Y,
       rcvd w s = rc0 ++ X ++ Y
       /\ sent w (partner s) = sb0 ++ X
       /\ (is_open w s = true \/ In s rem -> Y = []).

(* ------------------------------------------------------------------ *)
(** ** Reasoning about handler code *)

Lemma sock_eqb_spec a b : reflect (a = b) (sock_eqb a b).
Proof. destruct a, b; simpl; constructor; congruence. Qed.

Lemma sock_eqb_refl a : sock_eqb a a = true.
Proof. now destruct a. Qed.



Section Preserves.

Variable P : world -> Prop.

Lemma preserves_ret {A} (a : A) : preserves P (ret a).
Proof. intros w H; exact H. Qed.

Lemma preserves_raise {A} e : preserves P (@raise A e).
Proof. intros w H; exact H. Qed.

Lemma preserves_bind {A B} (m : M A) (k : A -> M B) :
  preserves P m -> (forall a, preserves P (k a)) -> preserves P (bind m k).
Proof.
  intros Hm Hk w Hw. unfold bind. specialize (Hm w Hw).
  destruct (m w) as [[a|e] w']; simpl in *; [apply Hk|]; assumption.
Qed.

Lemma preserves_try {A} c (m : M A) h :
  preserves P m -> (forall e, preserves P (h e)) -> preserves P (try_except c m h).
Proof.
  intros Hm Hh w Hw. unfold try_except. specialize (Hm w Hw).
  destruct (m w) as [[a|e] w']; simpl in *; [assumption|].
  destruct (c e); [apply Hh|]; assumption.
Qed.

Lemma preserves_for_each {A} (l : list A) body :
  (forall x, preserves P (body x)) -> preserves P (for_each l body).
Proof.
  intros Hb. induction l as [|x l IH]; simpl.
  - apply preserves_ret.
  - apply preserves_bind; [apply Hb | intros _; exact IH].
Qed.

Lemma preserves_get_sockets : preserves P get_sockets.
Proof. intros w H; exact H. Qed.

Lemma preserves_get_other : preserves P get_other.
Proof. intros w H. unfold get_other. now destruct (other w). Qed.

(** The relay loop keeps whatever its two loop bodies and the call
    log keep. *)
Hypothesis P_log : forall l, preserves P (log (CSelect l)).
Hypothesis P_exceptional : forall s, preserves P (handle_exceptional s).
Hypothesis P_readable : forall t s, preserves P (handle_readable t s).

Lemma preserves_relay_pass t : preserves P (relay_pass t).
Proof.
  unfold relay_pass, select.
  repeat (apply preserves_bind; [|intros ?]);
    auto using preserves_get_sockets, preserves_ret, preserves_for_each.
Qed.

Lemma preserves_relay_loop ts : preserves P (relay_loop ts).
Proof.
  induction ts as [|t ts IH]; simpl.
  - apply preserves_bind; [apply preserves_get_sockets|].
    intros [|? ?]; apply preserves_ret.
  - apply preserves_bind; [apply preserves_get_sockets|].
    intros [|? ?]; [apply preserves_ret|].
    apply preserves_bind; [apply preserves_relay_pass | intros _; exact IH].
Qed.

End Preserves.

Lemma bind_ok_inv {A B} (m : M A) (k : A -> M B) w b w' :
  bind m k w = (Ok b, w') ->
  exists a w1, m w = (Ok a, w1) /\ k a w1 = (Ok b, w').
Proof.
  unfold bind. destruct (m w) as [[a|e] w1]; intros H; [eauto | discriminate].
Qed.

Lemma bind_ok {A B} (m : M A) (k : A -> M B) w a w1 :
  m w = (Ok a, w1) -> bind m k w = k a w1.
Proof. intros H. unfold bind. now rewrite H. Qed.

(** Unfolding one loop body down to the record operations. *)
Ltac step_unfold :=
  unfold handle_readable, handle_exceptional, try_except, sockets_remove,
    sockets_contains, close, recv, sendall, get_other, get_open, get_usable,
    fd_usable, get_sockets,
    set_sockets, set_other, set_open, transmit, deliver, log, bind, ret, raise;
  simpl.

Ltac break_oracle :=
  repeat match goal with
  | |- context [match recv_out ?t ?x with _ => _ end] =>
      let E := fresh "Erecv" in destruct (recv_out t x) as [[|? ?]|] eqn:E; simpl
  | |- context [match sendall_out ?t ?x with _ => _ end] =>
      let E := fresh "Esend" in destruct (sendall_out t x) eqn:E; simpl
  end.


Lemma nodup_sock_cases (l : list sock) :
  NoDup l ->
  l = [] \/ l = [client] \/ l = [backend]
  \/ l = [client; backend] \/ l = [backend; client].
Proof.
  intros H. destruct l as [|a [|b [|c l]]].
  - auto.
  - destruct a; auto.
  - destruct a, b; auto; exfalso; inversion H as [|? ? Hn _]; apply Hn; simpl; auto.
  - exfalso. inversion H as [|? ? Ha H1]; subst. inversion H1 as [|? ? Hb H2]; subst.
    simpl in Ha, Hb. destruct a, b, c; tauto.
Qed.

Ltac wf_cases w Hnd Hm Hc Hb :=
  let l := fresh "l" in let o := fresh "o" in let op := fresh "op" in
  destruct w as [l o op ? ? ? ? ?]; simpl in *;
  pose proof (Hm client) as Hc; pose proof (Hm backend) as Hb;
  destruct (nodup_sock_cases _ Hnd) as [ -> | [ -> | [ -> | [ -> | -> ] ] ] ];
  simpl in Hc, Hb.

Ltac wf_done :=
  split;
  [ repeat constructor; simpl; intuition congruence
  | intros []; unfold upd; simpl; congruence ].

Lemma wf_log c : preserves wf (log c).
Proof. intros w H; exact H. Qed.

Lemma wf_handle_exceptional s : preserves wf (handle_exceptional s).
Proof.
  intros w [Hnd Hm]. wf_cases w Hnd Hm Hc Hb; step_unfold; destruct s; simpl; wf_done.
Qed.

Lemma wf_handle_readable t s : preserves wf (handle_readable t s).
Proof.
  intros w [Hnd Hm]. wf_cases w Hnd Hm Hc Hb;
  step_unfold; destruct s; rewrite <- ?Hc, <- ?Hb; simpl; break_oracle;
  rewrite <- ?Hc, <- ?Hb; simpl;
  try (match goal with |- context [match ?o with Some _ => _ | None => _ end] =>
         destruct o as [[|]|]; simpl end);
  rewrite <- ?Hc, <- ?Hb; simpl; wf_done.
Qed.

Lemma wf_relay_loop ts : preserves wf (relay_loop ts).
Proof.
  apply preserves_relay_loop;
    auto using wf_handle_exceptional, wf_handle_readable; intros l; apply wf_log.
Qed.

(** The loop condition: a run that left the loop left it with an empty
    watched list. *)
Lemma relay_loop_done ts : forall w w',
  relay_loop ts w = (Ok LoopDone, w') -> sockets w' = [].
Proof.
  induction ts as [|t ts IH]; intros w w' H; simpl in H;
    unfold bind at 1, get_sockets in H; destruct (sockets w) eqn:E.
  - inversion H; subst; assumption.
  - discriminate.
  - inversion H; subst; assumption.
  - apply bind_ok_inv in H. destruct H as (? & w1 & _ & H). eauto.
Qed.

(** The three ways a run of the loop over a schedule starts. *)
Lemma relay_loop_empty ts w :
  sockets w = [] -> relay_loop ts w = (Ok LoopDone, w).
Proof. intros H. destruct ts; simpl; unfold bind, get_sockets; now rewrite H. Qed.

Lemma relay_loop_nil w :
  sockets w <> [] -> relay_loop [] w = (Ok LoopWaiting, w).
Proof.
  intros H. simpl. unfold bind, get_sockets. destruct (sockets w); [congruence | reflexivity].
Qed.

Lemma relay_loop_cons t ts w :
  sockets w <> [] -> relay_loop (t :: ts) w = (relay_pass t ;; relay_loop ts) w.
Proof.
  intros H. simpl. unfold bind at 1, get_sockets.
  destruct (sockets w); [congruence | reflexivity].
Qed.

(* ------------------------------------------------------------------ *)
(** ** What the handler adds to the call trace *)


Lemma grew_from_log l0 c : socket_call c -> preserves (grew_from l0) (log c).
Proof.
  intros Hc w (calls & E & F). exists (calls ++ [c]). simpl. split.
  - rewrite E. now rewrite app_assoc.
  - apply Forall_app. split; [assumption | repeat constructor; assumption].
Qed.

(** Structural steps shared by the trace lemmas: split binds, handlers
    and case distinctions, close the leaves that do not touch the trace. *)
Ltac pres_step :=
  first
    [ apply preserves_ret
    | apply preserves_raise
    | apply preserves_bind; [|intros ?]
    | apply preserves_try; [|intros ?]
    | apply preserves_for_each; intros ?
    | apply preserves_get_other
    | apply grew_from_log; exact I
    | match goal with
      | |- preserves _ (match ?x with _ => _ end) => destruct x
      end
    | (intros ? ?; assumption) ].

Ltac pres := repeat pres_step.

Lemma grew_from_handle_exceptional l0 s : preserves (grew_from l0) (handle_exceptional s).
Proof. unfold handle_exceptional, sockets_remove, close. pres. Qed.

Lemma grew_from_handle_readable l0 t s : preserves (grew_from l0) (handle_readable t s).
Proof.
  unfold handle_readable, recv, sendall, sockets_remove, close. pres.
Qed.

Lemma grew_from_send l0 e i d : preserves (grew_from l0) (send e i d).
Proof. unfold send. pres. Qed.

Lemma grew_from_send_headers l0 e h names :
  forall i, preserves (grew_from l0) (send_headers e h i names).
Proof.
  induction names as [|n names IH]; intros i; simpl.
  - apply preserves_ret.
  - apply preserves_bind; [apply grew_from_send | intros _; apply IH].
Qed.

Lemma grew_from_handle_websocket l0 r e : preserves (grew_from l0) (handle_websocket r e).
Proof.
  unfold handle_websocket, open_backend, new_backend, connect, forward_handshake,
    start_relay, setblocking0, send_error.
  apply preserves_try; [|intros ?; pres].
  apply preserves_bind; [pres|intros _].
  apply preserves_bind.
  { apply preserves_bind; [apply grew_from_send|intros _].
    apply preserves_bind; [apply grew_from_send_headers|intros _]. apply grew_from_send. }
  intros _. apply preserves_bind; [pres|intros _].
  apply preserves_bind; [|intros ?; pres].
  apply preserves_relay_loop.
  - intros l. apply grew_from_log. exact I.
  - apply grew_from_handle_exceptional.
  - apply grew_from_handle_readable.
Qed.

(* ------------------------------------------------------------------ *)
(** ** The request classifier (lines 18-24) *)

Lemma lower_fold_char x c :
  (N_of_ascii c < 128)%N -> PyStr.lower_char x = c <-> ascii_fold x = c.
Proof.
  intros H.
  destruct x as [[] [] [] [] [] [] [] []];
    (split; intros E; subst c; first [reflexivity | vm_compute in H; discriminate]).
Qed.

Lemma lower_fold target : forall v,
  ascii_only target -> PyStr.lower v = target <-> fold_case v = target.
Proof.
  induction target as [|c target IH]; intros [|x v] A; simpl; try (split; congruence).
  destruct A as [Hc A]. specialize (IH v A). pose proof (@lower_fold_char x c Hc) as Hx.
  split; intros E; inversion E; subst; f_equal; tauto.
Qed.

Lemma lower_eqb_ci v target :
  ascii_only target -> fold_case target = target ->
  String.eqb (PyStr.lower v) target = ci_eqb v target.
Proof.
  intros A F. unfold ci_eqb. rewrite F. apply eq_true_iff_eq.
  rewrite !String.eqb_eq. now apply lower_fold.
Qed.

Lemma lower_eqb_websocket v :
  String.eqb (PyStr.lower v) "websocket" = ci_eqb v "websocket".
Proof. apply lower_eqb_ci; [simpl; repeat split | reflexivity]. Qed.

Lemma get_opt_first_header h :
  Headers.get_opt h "Upgrade" = first_header "Upgrade" h.
Proof.
  induction h as [|[k v] h IH]; [reflexivity|].
  cbn [Headers.get_opt first_header].
  change (PyStr.lower "Upgrade") with "upgrade"%string.
  rewrite (@lower_eqb_ci k "upgrade") by (simpl; repeat split; reflexivity).
  change (ci_eqb k "upgrade") with (ci_eqb k "Upgrade").
  now rewrite IH.
Qed.

Lemma do_GET_relay r e w :
  String.eqb (PyStr.lower (Headers.get (headers r) "Upgrade" EmptyString)) "websocket" = true ->
  relayed w (do_GET r e w).
Proof.
  intros H. unfold do_GET. rewrite H. unfold relayed.
  assert (G : grew_from (trace w ++ [CHandleWebsocket]) (snd (log CHandleWebsocket w))).
  { exists []. simpl. now rewrite app_nil_r. }
  apply (grew_from_handle_websocket _ r e) in G. destruct G as (calls & E & F).
  exists calls. split; [|assumption].
  change ((log CHandleWebsocket;; handle_websocket r e) w)
    with (handle_websocket r e (snd (log CHandleWebsocket w))).
  rewrite E. now rewrite <- app_assoc.
Qed.

Lemma do_GET_static r e w :
  String.eqb (PyStr.lower (Headers.get (headers r) "Upgrade" EmptyString)) "websocket" = false ->
  served_static w (do_GET r e w).
Proof. intros H. unfold do_GET. rewrite H. reflexivity. Qed.

(** The two outcomes exclude each other. *)
Lemma relayed_not_static w x : relayed w x -> ~ served_static w x.
Proof.
  intros (calls & E & F) S. unfold served_static in S. subst x. simpl in E.
  apply app_inv_head in E. inversion E.
Qed.

(** C4. A request whose Upgrade header value matches [websocket]
    case-insensitively goes to the relay and never to the static file
    handler; every other request goes to the static file handler and
    the relay is not invoked. *)
Theorem do_GET_routes_by_upgrade (r : request) (e : env) (w : world) :
  if upgrade_matches r
  then relayed w (do_GET r e w) /\ ~ In CStaticGET (skipn (List.length (trace w)) (trace (snd (do_GET r e w))))
  else served_static w (do_GET r e w) /\ ~ relayed w (do_GET r e w).
Proof.
  assert (M : String.eqb (PyStr.lower (Headers.get (headers r) "Upgrade" EmptyString)) "websocket"
              = upgrade_matches r).
  { unfold upgrade_matches, Headers.get. rewrite <- get_opt_first_header.
    destruct (Headers.get_opt (headers r) "Upgrade"); [apply lower_eqb_websocket | reflexivity]. }
  destruct (upgrade_matches r).
  - pose proof (do_GET_relay r e w M) as R. split; [exact R|].
    destruct R as (calls & E & F). rewrite E.
    rewrite skipn_app, Nat.sub_diag, skipn_all. simpl.
    intros [H|H]; [discriminate|].
    rewrite Forall_forall in F. exact (F _ H).
  - pose proof (do_GET_static r e w M) as S. split; [exact S|].
    intros R. exact (@relayed_not_static _ _ R S).
Qed.

Lemma lower_length s : String.length (PyStr.lower s) = String.length s.
Proof. induction s; simpl; congruence. Qed.

Lemma string_length_app a b :
  String.length (a ++ b)%string = String.length a + String.length b.
Proof. induction a; simpl; congruence. Qed.

Lemma lower_app a b : PyStr.lower (a ++ b)%string = (PyStr.lower a ++ PyStr.lower b)%string.
Proof. induction a; simpl; congruence. Qed.

(** C10. A missing Upgrade header reads as the empty string and the
    request is served statically; with a header present the request is
    relayed exactly when the lowercased value is the string
    [websocket], so a value with anything before or after that word
    is served statically. *)
Theorem classifier_exact_match (r : request) (e : env) (w : world) :
  (Headers.get_opt (headers r) "Upgrade" = None ->
     Headers.get (headers r) "Upgrade" EmptyString = EmptyString
     /\ served_static w (do_GET r e w))
  /\ (forall v, Headers.get_opt (headers r) "Upgrade" = Some v ->
        (relayed w (do_GET r e w) <-> PyStr.lower v = "websocket"%string)
        /\ (served_static w (do_GET r e w) <-> PyStr.lower v <> "websocket"%string))
  /\ (forall pre v post,
        Headers.get_opt (headers r) "Upgrade" = Some (pre ++ v ++ post)%string ->
        PyStr.lower v = "websocket"%string -> (pre ++ post)%string <> EmptyString ->
        served_static w (do_GET r e w)).
Proof.
  assert (K : forall v, Headers.get_opt (headers r) "Upgrade" = Some v ->
              (relayed w (do_GET r e w) <-> PyStr.lower v = "websocket"%string)
              /\ (served_static w (do_GET r e w) <-> PyStr.lower v <> "websocket"%string)).
  { intros v Hv.
    assert (G : Headers.get (headers r) "Upgrade" EmptyString = v)
      by (unfold Headers.get; now rewrite Hv).
    destruct (String.eqb_spec (PyStr.lower v) "websocket") as [E|N].
    - assert (R : relayed w (do_GET r e w))
        by (apply do_GET_relay; rewrite G; now apply String.eqb_eq).
      split; split; try tauto. intros S. exfalso. exact (@relayed_not_static _ _ R S).
    - assert (S : served_static w (do_GET r e w))
        by (apply do_GET_static; rewrite G; now apply String.eqb_neq).
      split; split; try tauto. intros R. exfalso. exact (@relayed_not_static _ _ R S). }
  split; [|split].
  - intros Hn. unfold Headers.get. rewrite Hn. split; [reflexivity|].
    apply do_GET_static. unfold Headers.get. now rewrite Hn.
  - exact K.
  - intros pre v post Hv Hl Hne. apply (K _ Hv). intros E.
    apply (f_equal String.length) in E.
    rewrite !lower_app, !string_length_app, Hl, !lower_length in E. simpl in E.
    destruct pre, post; simpl in *; try congruence; lia.
Qed.

Lemma classifier_exact_match_witness :
  served_static (entry true) (do_GET req_keep_alive quiet_env (entry true)).
Proof.
  apply (proj2 (proj2 (classifier_exact_match req_keep_alive quiet_env (entry true)))
           EmptyString "websocket"%string ", keep-alive"%string);
    [reflexivity | reflexivity | discriminate].
Defined.

(* ------------------------------------------------------------------ *)
(** ** The backend connector (lines 28-31, 82-84) *)

(** C5. When [connect] fails the handler makes this one connect
    attempt and nothing else on the backend, answers the client through
    [send_error(502)], and leaves [close_connection] set, so the base
    handler closes the client connection; it returns normally unless
    writing that answer raises. *)
Theorem connect_failure_gives_502 (r : request) (e : env) (w : world) :
  connect_ok e = false ->
  fst (handle_websocket r e w)
  = (if reply_ok e then Ok (GatewayError OSError) else Raise OSError)
  /\ trace (snd (handle_websocket r e w))
     = trace w ++ [CSocket; CConnect; CSendError 502]
  /\ close_connection (snd (handle_websocket r e w)) = true
  /\ sent (snd (handle_websocket r e w)) = sent w.
Proof.
  intros H.
  unfold handle_websocket, try_except, open_backend, new_backend, connect, bind at 1 2 3.
  unfold send_error, log, set_open, set_close_connection, bind, ret, raise. simpl.
  rewrite H. simpl. destruct (reply_ok e); simpl; rewrite <- !app_assoc; simpl; auto.
Qed.

Lemma connect_failure_gives_502_witness :
  trace (snd (handle_websocket req_ws refused_env (entry true)))
  = [CSocket; CConnect; CSendError 502].
Proof.
  exact (proj1 (proj2 (@connect_failure_gives_502 req_ws refused_env (entry true) eq_refl))).
Defined.

(* ------------------------------------------------------------------ *)
(** ** The loop bodies (lines 55-77) *)

Lemma handle_exceptional_drops s w :
  wf w -> mem s (sockets w) = true ->
  dropped_alone s w (handle_exceptional s w)
  /\ trace (snd (handle_exceptional s w)) = trace w ++ [CClose s].
Proof.
  intros [Hnd Hm] Hs. unfold dropped_alone.
  wf_cases w Hnd Hm Hc Hb; destruct s; simpl in Hs; try discriminate;
    step_unfold; unfold upd; simpl; rewrite <- ?Hc, <- ?Hb; repeat split; reflexivity.
Qed.

Lemma handle_readable_read_failure t s w :
  wf w -> is_open w s = true -> recv_out t s = RecvRaises ->
  dropped_alone s w (handle_readable t s w)
  /\ trace (snd (handle_readable t s w)) = trace w ++ [CRecv s; CClose s].
Proof.
  intros [Hnd Hm] Ho Hr. unfold dropped_alone.
  wf_cases w Hnd Hm Hc Hb; destruct s; rewrite <- ?Hc, <- ?Hb in Ho; try discriminate;
    step_unfold; rewrite <- ?Hc, <- ?Hb, ?Hr; simpl; unfold upd; simpl;
    rewrite <- ?Hc, <- ?Hb, <- ?app_assoc; repeat split; reflexivity.
Qed.

Lemma handle_readable_write_failure t s w x d :
  wf w -> is_open w s = true -> recv_out t s = RecvBytes (x :: d) ->
  sendall_fails t w (partner s) ->
  dropped_alone s w (handle_readable t s w)
  /\ trace (snd (handle_readable t s w))
     = trace w ++ [CRecv s; CSendall (partner s) (x :: d); CClose s].
Proof.
  intros [Hnd Hm] Ho Hr Hf. unfold dropped_alone, sendall_fails in *.
  wf_cases w Hnd Hm Hc Hb; destruct s; rewrite <- ?Hc, <- ?Hb in Ho; try discriminate;
    simpl in Hf; rewrite <- ?Hc, <- ?Hb in Hf;
    step_unfold; rewrite <- ?Hc, <- ?Hb, ?Hr; simpl; rewrite <- ?Hc, <- ?Hb; simpl;
    try (match goal with |- context [sendall_out] =>
           destruct Hf as [Hf|[n Hf]]; [discriminate|rewrite Hf; simpl] end);
    unfold upd; simpl;
    rewrite <- ?Hc, <- ?Hb, <- ?app_assoc; repeat split; reflexivity.
Qed.

Lemma wf_relay_start hs : wf (relay_start hs).
Proof.
  split; [repeat constructor; simpl; intuition congruence | intros []; reflexivity].
Qed.

(** End of stream on [s], by what [other] holds at that moment. *)
Lemma handle_readable_eof t s w :
  wf w -> is_open w s = true -> recv_out t s = RecvBytes [] ->
  match other w with
  | None =>
      fst (handle_readable t s w) = Raise UnboundLocalError
      /\ sockets (snd (handle_readable t s w)) = remove_first s (sockets w)
      /\ is_open (snd (handle_readable t s w)) (partner s) = is_open w (partner s)
  | Some o =>
      if sock_eqb o s
      then dropped_alone s w (handle_readable t s w)
      else fst (handle_readable t s w) = Ok tt
           /\ both_torn_down (snd (handle_readable t s w))
  end.
Proof.
  intros [Hnd Hm] Ho Hr. unfold dropped_alone, both_torn_down.
  wf_cases w Hnd Hm Hc Hb; destruct s; rewrite <- ?Hc, <- ?Hb in Ho; try discriminate;
    destruct o as [[|]|]; simpl;
    step_unfold; rewrite <- ?Hc, <- ?Hb, ?Hr; simpl; unfold upd; simpl;
    rewrite <- ?Hc, <- ?Hb; repeat split; reflexivity.
Qed.

(** C9. When the [sendall] of a non-empty chunk raises, the [except]
    branch removes and closes the socket the chunk was read from; the
    partner, on which the write failed, keeps its place in the watched
    list and is not closed by that branch. *)
Theorem write_failure_closes_reader_only
    (t : tick) (s : sock) (w : world) (x : byte) (d : list byte) :
  wf w -> is_open w s = true -> recv_out t s = RecvBytes (x :: d) ->
  sendall_fails t w (partner s) ->
  dropped_alone s w (handle_readable t s w)
  /\ ~ In (CClose (partner s))
          (skipn (List.length (trace w)) (trace (snd (handle_readable t s w)))).
Proof.
  intros Hw Ho Hr Hf.
  destruct (handle_readable_write_failure t s w x d Hw Ho Hr Hf) as [D T]. split; [exact D|].
  rewrite T, skipn_app, Nat.sub_diag, skipn_all. simpl.
  destruct s; simpl; intuition discriminate.
Qed.

Lemma write_failure_closes_reader_only_witness :
  sockets (snd (handle_readable (write_error_tick client ["h"%byte; "i"%byte] 0)
                  client (relay_start []))) = [backend]
  /\ is_open (snd (handle_readable (write_error_tick client ["h"%byte; "i"%byte] 0)
                     client (relay_start []))) backend = true.
Proof.
  pose proof (@write_failure_closes_reader_only
                (write_error_tick client ["h"%byte; "i"%byte] 0) client (relay_start [])
                "h"%byte ["i"%byte] (wf_relay_start []) eq_refl eq_refl
                (or_intror (ex_intro _ 0 eq_refl))) as [D _].
  destruct D as (_ & S & _ & _ & _ & O). split; [exact S | exact O].
Defined.

(** C6, as the code has it. For a socket reported exceptional, a
    [recv] that raises, or a [sendall] that raises, the loop body
    returns normally (no exception leaves the loop, the process goes
    on), the socket being handled is removed from the watched list and
    closed, and its partner stays as it was: the relay goes on with the
    partner until its own end of stream or error. *)
Theorem socket_error_drops_one_socket (t : tick) (s : sock) (w : world) :
  wf w ->
  (mem s (sockets w) = true -> dropped_alone s w (handle_exceptional s w))
  /\ (is_open w s = true -> recv_out t s = RecvRaises ->
      dropped_alone s w (handle_readable t s w))
  /\ (forall x d, is_open w s = true -> recv_out t s = RecvBytes (x :: d) ->
      sendall_fails t w (partner s) ->
      dropped_alone s w (handle_readable t s w)).
Proof.
  intros Hw. split; [|split].
  - intros Hs. apply (handle_exceptional_drops s w Hw Hs).
  - intros Ho Hr. apply (handle_readable_read_failure t s w Hw Ho Hr).
  - intros x d Ho Hr Hf. apply (handle_readable_write_failure t s w x d Hw Ho Hr Hf).
Qed.

Lemma socket_error_drops_one_socket_witness :
  dropped_alone client (relay_start [])
    (handle_readable (read_error_tick client) client (relay_start [])).
Proof.
  exact (proj1 (proj2 (@socket_error_drops_one_socket (read_error_tick client) client
                         (relay_start []) (wf_relay_start [])))
           eq_refl eq_refl).
Defined.

(** C6 as stated fails: with the client reported exceptional in the
    first pass, the backend is still watched and open after the pass. *)
Lemma exceptional_client_keeps_backend :
  ~ both_torn_down (snd (relay_pass (exceptional_tick client) (relay_start []))).
Proof. intros (H & _). vm_compute in H. discriminate. Qed.

(* ------------------------------------------------------------------ *)
(** ** Exit paths of [handle_websocket] (lines 26-84) *)

Lemma both_open_send e i d : preserves both_open (send e i d).
Proof. unfold send. pres. Qed.

Lemma both_open_send_headers e h names :
  forall i, preserves both_open (send_headers e h i names).
Proof.
  induction names as [|n names IH]; intros i; simpl.
  - apply preserves_ret.
  - apply preserves_bind; [apply both_open_send | intros _; apply IH].
Qed.

Lemma both_open_forward_handshake r e : preserves both_open (forward_handshake r e).
Proof.
  unfold forward_handshake.
  apply preserves_bind; [apply both_open_send|intros _].
  apply preserves_bind; [apply both_open_send_headers|intros _]. apply both_open_send.
Qed.

Lemma open_backend_ok e w a w1 :
  is_open w client = true -> open_backend e w = (Ok a, w1) -> both_open w1.
Proof.
  intros Hc H. unfold open_backend, new_backend, connect, log, set_open, bind, ret, raise in H.
  simpl in H. destruct (connect_ok e); inversion H; subst.
  intros []; unfold upd; simpl; [exact Hc | reflexivity].
Qed.

Lemma start_relay_ok w a w1 :
  both_open w -> start_relay w = (Ok a, w1) -> wf w1.
Proof.
  intros Hb H. unfold start_relay, setblocking0, log, set_nonblocking, set_sockets, bind, ret in H.
  simpl in H. inversion H; subst. split; simpl.
  - repeat constructor; simpl; intuition congruence.
  - intros []; simpl; symmetry; apply Hb.
Qed.

Lemma bind_raise {A B} (m : M A) (k : A -> M B) w ex w1 :
  m w = (Raise ex, w1) -> bind m k w = (Raise ex, w1).
Proof. intros H. unfold bind. now rewrite H. Qed.

Lemma finished_closes_both r e cc w' :
  handle_websocket r e (entry cc) = (Ok Finished, w') ->
  both_closed w' /\ sockets w' = [] /\ close_connection w' = false.
Proof.
  unfold handle_websocket, try_except. intros H.
  match type of H with
  | context [match ?body (entry cc) with _ => _ end] =>
      destruct (body (entry cc)) as [[x|ex] w1] eqn:E
  end.
  2:{ unfold any_exception, send_error, log, set_close_connection, bind, ret, raise in H.
      simpl in H. destruct (reply_ok e); discriminate. }
  inversion H; subst x w1; clear H.
  apply bind_ok_inv in E. destruct E as (a1 & w1 & E1 & E).
  apply bind_ok_inv in E. destruct E as (a2 & w2 & E2 & E).
  apply bind_ok_inv in E. destruct E as (a3 & w3 & E3 & E).
  apply bind_ok_inv in E. destruct E as (x & w4 & E4 & E).
  assert (O1 : both_open w1) by (apply (open_backend_ok e (entry cc) a1 w1); [reflexivity | exact E1]).
  assert (O2 : both_open w2).
  { pose proof (both_open_forward_handshake r e w1 O1) as P. now rewrite E2 in P. }
  assert (W3 : wf w3) by (apply (start_relay_ok w2 a3 w3 O2 E3)).
  assert (W4 : wf w4).
  { pose proof (wf_relay_loop (ticks e) w3 W3) as P. now rewrite E4 in P. }
  destruct x.
  - apply relay_loop_done in E4.
    unfold set_close_connection, bind, ret in E. simpl in E. inversion E; subst w'.
    destruct W4 as [_ M]. rewrite E4 in M. unfold both_closed; simpl.
    rewrite <- (M client), <- (M backend). auto.
  - unfold ret in E. discriminate.
Qed.

Lemma handshake_failure_keeps_backend r e cc a w ex w1 :
  open_backend e (entry cc) = (Ok a, w) ->
  forward_handshake r e w = (Raise ex, w1) ->
  fst (handle_websocket r e (entry cc))
  = (if reply_ok e then Ok (GatewayError ex) else Raise OSError)
  /\ is_open (snd (handle_websocket r e (entry cc))) backend = true
  /\ close_connection (snd (handle_websocket r e (entry cc))) = true.
Proof.
  intros E1 E2.
  assert (O1 : both_open w)
    by (apply (open_backend_ok e (entry cc) a w); [reflexivity | exact E1]).
  pose proof (both_open_forward_handshake r e w O1) as P. rewrite E2 in P.
  unfold handle_websocket, try_except.
  rewrite (bind_ok _ _ _ _ _ E1), (bind_raise _ _ _ _ _ E2).
  unfold any_exception, send_error, log, set_close_connection, bind, ret, raise. simpl.
  destruct (reply_ok e); simpl; repeat split; try reflexivity; exact (P backend).
Qed.

(** C7, as the code has it. The handler has no clean-up construct: it
    closes a socket only where the relay loop drops it.  When the
    [try] body runs to its end, the loop has emptied the watched list
    and both the client and the backend socket are closed.  When a
    handshake [send] raises, the handler answers 502 and returns - or
    raises, if writing the answer fails - with the backend socket
    still open. *)
Theorem exit_paths_of_handle_websocket (r : request) (e : env) (cc : bool) :
  (forall w',
     handle_websocket r e (entry cc) = (Ok Finished, w') ->
     both_closed w' /\ sockets w' = [] /\ close_connection w' = false)
  /\ (forall a w ex w1,
       open_backend e (entry cc) = (Ok a, w) ->
       forward_handshake r e w = (Raise ex, w1) ->
       fst (handle_websocket r e (entry cc))
       = (if reply_ok e then Ok (GatewayError ex) else Raise OSError)
       /\ is_open (snd (handle_websocket r e (entry cc))) backend = true
       /\ close_connection (snd (handle_websocket r e (entry cc))) = true).
Proof.
  split.
  - apply finished_closes_both.
  - intros a w ex w1 E1 E2.
    exact (handshake_failure_keeps_backend r e cc a w ex w1 E1 E2).
Qed.

Lemma exit_paths_of_handle_websocket_witness :
  both_closed (snd (handle_websocket req_ws
                      (env_of [read_tick client ["h"%byte]; eof_tick client])
                      (entry true))).
Proof.
  refine (proj1 (proj1 (exit_paths_of_handle_websocket req_ws
                   (env_of [read_tick client ["h"%byte]; eof_tick client]) true)
                   (snd (handle_websocket req_ws
                           (env_of [read_tick client ["h"%byte]; eof_tick client])
                           (entry true)))
                   _)).
  vm_compute. reflexivity.
Defined.

(** C7 as stated fails: when the first handshake [send] raises, the
    handler leaves through [except] with the backend socket, opened
    two lines earlier, still open. *)
Lemma handshake_error_leaves_backend_open :
  fst (handle_websocket req_ws broken_pipe_env (entry true)) = Ok (GatewayError OSError)
  /\ ~ both_closed (snd (handle_websocket req_ws broken_pipe_env (entry true))).
Proof.
  split; [reflexivity|]. intros [_ H]. vm_compute in H. discriminate.
Qed.

(* ------------------------------------------------------------------ *)
(** ** End of stream (lines 66-72) and the loop condition (line 52) *)

(** A pass in which [select] times out changes nothing but the trace. *)
Lemma relay_pass_idle t w :
  (forall s, ready_r t s = false) -> (forall s, ready_x t s = false) ->
  relay_pass t w = (Ok tt, snd (log (CSelect (sockets w)) w)).
Proof.
  intros Hr Hx. unfold relay_pass, select, get_sockets, bind at 1 2 3, log, ret. simpl.
  assert (F : forall (f : sock -> bool) l, (forall s, f s = false) -> filter f l = []).
  { intros f l Hf. induction l as [|a l IH]; simpl; [reflexivity|]. now rewrite Hf. }
  rewrite (F _ _ Hr), (F _ _ Hx). reflexivity.
Qed.

(** C1, at the failing inputs. (1) The backend reaches end of stream as
    the first readable event: [other] is unbound, the backend is
    removed and closed, the lookup of [other] raises, and the handler
    leaves through [except] with the client still watched and open.
    (2) The backend sent a chunk earlier, then the client reaches end of
    stream: [other] still names the client, so only the client is
    dropped and the backend stays watched and open.
    (3) Both sockets are readable in one pass and the first reaches end
    of stream with [other] naming its partner: both are closed, and
    [recv] is then called on the partner, already closed. *)
Theorem eof_partner_not_closed :
  (fst (handle_websocket req_ws (env_of [eof_tick backend]) (entry true))
     = Ok (GatewayError UnboundLocalError)
   /\ sockets (snd (handle_websocket req_ws (env_of [eof_tick backend]) (entry true)))
      = [client]
   /\ is_open (snd (handle_websocket req_ws (env_of [eof_tick backend]) (entry true)))
        client = true)
  /\ (fst (handle_websocket req_ws
             (env_of [read_tick backend ["h"%byte]; eof_tick client]) (entry true))
        = Ok Relaying
      /\ sockets (snd (handle_websocket req_ws
                         (env_of [read_tick backend ["h"%byte]; eof_tick client])
                         (entry true)))
         = [backend]
      /\ is_open (snd (handle_websocket req_ws
                         (env_of [read_tick backend ["h"%byte]; eof_tick client])
                         (entry true)))
           backend = true)
  /\ trace (snd (relay_loop [read_tick client ["h"%byte]; both_eof_tick]
                            (relay_start [])))
     = [CSelect [client; backend]; CRecv client; CSendall backend ["h"%byte];
        CSelect [client; backend]; CRecv client; CClose client; CClose backend;
        CRecv backend].
Proof. repeat split; vm_compute; reflexivity. Qed.

(** C8, at the failing input. The loop is left while a socket is still
    watched: end of stream on the backend as the first readable event
    raises [UnboundLocalError] out of the loop with the client in the
    watched list, and the pass that follows in the schedule never runs. *)
Theorem loop_left_with_watched_socket :
  fst (relay_loop [eof_tick backend; idle_tick] (relay_start []))
    = Raise UnboundLocalError
  /\ sockets (snd (relay_loop [eof_tick backend; idle_tick] (relay_start [])))
     = [client]
  /\ trace (snd (relay_loop [eof_tick backend; idle_tick] (relay_start [])))
     = [CSelect [client; backend]; CRecv backend; CClose backend].
Proof. repeat split; vm_compute; reflexivity. Qed.

(* ------------------------------------------------------------------ *)
(** ** Forwarding (lines 59-65) *)




Lemma handle_exceptional_other s w :
  other (snd (handle_exceptional s w)) = other w.
Proof. step_unfold. destruct (mem s (sockets w)); reflexivity. Qed.

(** The sockets [select] reports exceptional are distinct and watched:
    removing them one after the other never fails. *)
Lemma for_each_exceptional_ok l : forall w,
  wf w -> NoDup l -> (forall s, In s l -> mem s (sockets w) = true) ->
  fst (for_each l handle_exceptional w) = Ok tt
  /\ wf (snd (for_each l handle_exceptional w))
  /\ other (snd (for_each l handle_exceptional w)) = other w.
Proof.
  induction l as [|x l IH]; intros w Hw Hnd Hin; simpl.
  - auto.
  - inversion Hnd as [|? ? Hx Hl]; subst.
    destruct (handle_exceptional_drops x w Hw (Hin x (or_introl eq_refl)))
      as [(R & _ & _ & _ & Mp & _) _].
    pose proof (wf_handle_exceptional x w Hw) as W1.
    pose proof (handle_exceptional_other x w) as O1.
    unfold bind. destruct (handle_exceptional x w) as [[[]|ex] w1]; simpl in *;
      try discriminate.
    destruct (IH w1 W1 Hl) as (R2 & W2 & O2).
    { intros s Hs. assert (s = partner x).
      { destruct s, x; try reflexivity; exfalso; apply Hx; exact Hs. }
      subst s. rewrite Mp. apply Hin. now right. }
    split; [exact R2 | split; [exact W2 | congruence]].
Qed.

Lemma relay_pass_unfold t w :
  relay_pass t w
  = (for_each (filter (ready_x t) (sockets w)) handle_exceptional ;;
     for_each (filter (ready_r t) (sockets w)) (handle_readable t))
      (snd (log (CSelect (sockets w)) w)).
Proof. reflexivity. Qed.

Lemma mem_In s l : mem s l = true <-> In s l.
Proof.
  unfold mem. rewrite existsb_exists. split.
  - intros (x & Hx & E). destruct (sock_eqb_spec s x); [subst; assumption | discriminate].
  - intros H. exists s. split; [assumption | apply sock_eqb_refl].
Qed.

(** The loop is a sequence of passes. *)
Lemma preserves_relay_loop_by_pass (P : world -> Prop) :
  (forall t, preserves P (relay_pass t)) -> forall ts, preserves P (relay_loop ts).
Proof.
  intros Hp. induction ts as [|t ts IH]; simpl.
  - apply preserves_bind; [apply preserves_get_sockets|].
    intros [|? ?]; apply preserves_ret.
  - apply preserves_bind; [apply preserves_get_sockets|].
    intros [|? ?]; [apply preserves_ret|].
    apply preserves_bind; [apply Hp | intros _; exact IH].
Qed.

(** *** Forwarding order within a pass

    A socket is read at most once per pass, and only if it was watched
    when the pass began; the bytes of a chunk that a failed write left
    out are never followed by later ones. *)

Ltac forwarded_own_done X HR HS :=
  first
    [ exists X, []; simpl; rewrite ?app_nil_r; split; [|split];
      solve [ assumption | congruence | intros; reflexivity ]
    | match goal with
      | |- context [firstn ?n ?d] =>
          exists (X ++ firstn n d), (skipn n d); simpl; split; [|split];
          [ rewrite HR, <- !app_assoc, firstn_skipn; reflexivity
          | rewrite HS, app_assoc; reflexivity
          | intros; discriminate ]
      end
    | match goal with
      | |- context [?r _ ++ ?d] =>
          first
            [ exists (X ++ d), []; simpl; split; [|split];
              [ rewrite HR, !app_nil_r, <- app_assoc; reflexivity
              | rewrite HS, app_assoc; reflexivity
              | intros; reflexivity ]
            | exists X, d; simpl; split; [|split];
              [ rewrite HR, <- app_assoc; reflexivity
              | exact HS
              | intros; discriminate ] ]
      end ].

(** Reading [s] itself, nothing missing before. *)
Lemma forwarded_read_own s sb0 rc0 t w X :
  wf w -> rcvd w s = rc0 ++ X -> sent w (partner s) = sb0 ++ X ->
  forwarded_from s sb0 rc0 (snd (handle_readable t s w)).
Proof.
  intros [Hnd Hm] HR HS. unfold forwarded_from.
  destruct s; simpl in HS |- *;
    wf_cases w Hnd Hm Hc Hb;
    step_unfold; rewrite <- ?Hc, <- ?Hb; simpl; break_oracle;
    rewrite <- ?Hc, <- ?Hb; simpl;
    try (match goal with |- context [match ?o with Some _ => _ | None => _ end] =>
           destruct o as [[|]|]; simpl end);
    rewrite <- ?Hc, <- ?Hb; simpl; unfold upd; simpl;
    forwarded_own_done X HR HS.
Qed.

(** Reading the partner of [s] leaves the direction from [s] alone. *)
Lemma forwarded_read_partner s t w :
  wf w ->
  rcvd (snd (handle_readable t (partner s) w)) s = rcvd w s
  /\ sent (snd (handle_readable t (partner s) w)) (partner s) = sent w (partner s)
  /\ (is_open (snd (handle_readable t (partner s) w)) s = true -> is_open w s = true).
Proof.
  intros [Hnd Hm].
  destruct s; simpl;
    wf_cases w Hnd Hm Hc Hb;
    step_unfold; rewrite <- ?Hc, <- ?Hb; simpl; break_oracle;
    rewrite <- ?Hc, <- ?Hb; simpl;
    try (match goal with |- context [match ?o with Some _ => _ | None => _ end] =>
           destruct o as [[|]|]; simpl end);
    rewrite <- ?Hc, <- ?Hb; simpl; unfold upd; simpl;
    repeat split; solve [ reflexivity | intros; congruence ].
Qed.

Lemma forwarded_pending_step s sb0 rc0 t x rem w :
  NoDup (x :: rem) -> forwarded_pending s sb0 rc0 (x :: rem) w ->
  forwarded_pending s sb0 rc0 rem (snd (handle_readable t x w)).
Proof.
  intros Hnd (Hw & X & Y & HR & HS & HY).
  split; [apply wf_handle_readable; exact Hw|].
  inversion Hnd as [|? ? Hx _]; subst.
  destruct (sock_eqb_spec x s) as [->|Hne].
  - assert (Y0 : Y = []) by (apply HY; right; left; reflexivity). subst Y.
    rewrite app_nil_r in HR.
    destruct (forwarded_read_own s sb0 rc0 t w X Hw HR HS) as (X' & Y' & HR' & HS' & HY').
    exists X', Y'. split; [exact HR' | split; [exact HS'|]].
    intros [H|H]; [exact (HY' H) | contradiction].
  - assert (x = partner s) by (destruct x, s; simpl; congruence). subst x.
    destruct (forwarded_read_partner s t w Hw) as (R & S & O).
    exists X, Y. rewrite R, S. split; [exact HR | split; [exact HS|]].
    intros [H|H]; apply HY; [left; exact (O H) | right; right; exact H].
Qed.

Lemma forwarded_pending_for_each s sb0 rc0 t rem : forall w,
  NoDup rem -> forwarded_pending s sb0 rc0 rem w ->
  forwarded_pending s sb0 rc0 [] (snd (for_each rem (handle_readable t) w)).
Proof.
  induction rem as [|x rem IH]; intros w Hnd Hq; [exact Hq|].
  pose proof (forwarded_pending_step s sb0 rc0 t x rem w Hnd Hq) as Hq'.
  inversion Hnd as [|? ? _ Hnd']; subst.
  simpl. unfold bind. destruct (handle_readable t x w) as [[[]|ex] w1]; simpl in Hq'.
  - apply IH; assumption.
  - destruct Hq' as (W & X & Y & HR & HS & HY). split; [exact W|].
    exists X, Y. split; [exact HR | split; [exact HS|]].
    intros [H|[]]. apply HY. now left.
Qed.

(** Closing the exceptional sockets reads nothing, writes nothing and
    opens nothing. *)
Lemma exceptional_phase_streams l w :
  rcvd (snd (for_each l handle_exceptional w)) = rcvd w
  /\ sent (snd (for_each l handle_exceptional w)) = sent w
  /\ forall v, is_open (snd (for_each l handle_exceptional w)) v = true ->
               is_open w v = true.
Proof.
  apply (preserves_for_each
           (fun u => rcvd u = rcvd w /\ sent u = sent w
                     /\ forall v, is_open u v = true -> is_open w v = true)
           l handle_exceptional); [|auto].
  intros x u (R & S & O). step_unfold. destruct (mem x (sockets u)); simpl; [|auto].
  split; [exact R | split; [exact S|]].
  intros v. unfold upd. destruct (sock_eqb v x); [discriminate | apply O].
Qed.

Lemma forwarded_from_relay_pass s sb0 rc0 t :
  preserves (fun w => wf w /\ forwarded_from s sb0 rc0 w) (relay_pass t).
Proof.
  intros w [Hw (X & Y & HR & HS & HY)]. rewrite relay_pass_unfold.
  set (w0 := snd (log (CSelect (sockets w)) w)).
  assert (W0 : wf w0) by exact Hw.
  destruct (for_each_exceptional_ok (filter (ready_x t) (sockets w)) w0 W0)
    as (R1 & W1 & _).
  { apply NoDup_filter. exact (proj1 Hw). }
  { intros x Hx. apply filter_In in Hx. apply mem_In. exact (proj1 Hx). }
  destruct (exceptional_phase_streams (filter (ready_x t) (sockets w)) w0)
    as (Rc & Sn & Op).
  unfold bind.
  destruct (for_each (filter (ready_x t) (sockets w)) handle_exceptional w0)
    as [[[]|ex] w1]; simpl in R1, W1, Rc, Sn, Op; try discriminate.
  assert (Q : forwarded_pending s sb0 rc0 (filter (ready_r t) (sockets w)) w1).
  { split; [exact W1|]. exists X, Y. rewrite Rc, Sn.
    split; [exact HR | split; [exact HS|]].
    intros [H|H]; apply HY.
    - exact (Op s H).
    - apply filter_In in H. destruct H as [H _]. apply mem_In in H.
      rewrite (proj2 Hw) in H. exact H. }
  apply (forwarded_pending_for_each s sb0 rc0 t) in Q;
    [|apply NoDup_filter; exact (proj1 Hw)].
  destruct Q as (W2 & X2 & Y2 & HR2 & HS2 & HY2).
  split; [exact W2|]. exists X2, Y2.
  split; [exact HR2 | split; [exact HS2|]]. intros H. apply HY2. now left.
Qed.

(** The forwarding invariant of one direction holds along the loop. *)
Lemma forwarded_from_relay_loop s ts w :
  wf w ->
  exists X Y,
    rcvd (snd (relay_loop ts w)) s = rcvd w s ++ X ++ Y
    /\ sent (snd (relay_loop ts w)) (partner s) = sent w (partner s) ++ X
    /\ (is_open (snd (relay_loop ts w)) s = true -> Y = []).
Proof.
  intros Hw.
  assert (I : wf w /\ forwarded_from s (sent w (partner s)) (rcvd w s) w).
  { split; [exact Hw|]. exists [], []. simpl. rewrite !app_nil_r. auto. }
  apply (preserves_relay_loop_by_pass
           (fun v => wf v /\ forwarded_from s (sent w (partner s)) (rcvd w s) v)
           (forwarded_from_relay_pass s _ _) ts) in I.
  exact (proj2 I).
Qed.





(* ------------------------------------------------------------------ *)
(** ** The handshake forwarder (lines 33-41) *)

Lemma encode_app a b :
  PyStr.encode (a ++ b)%string = PyStr.encode a ++ PyStr.encode b.
Proof. induction a as [|c a IH]; simpl; [reflexivity|]. now rewrite IH, app_assoc. Qed.

Lemma send_all e i d w :
  hs_send e i = SendsAll ->
  fst (send e i d w) = Ok tt
  /\ sent (snd (send e i d w)) backend = sent w backend ++ d
  /\ sent (snd (send e i d w)) client = sent w client.
Proof.
  intros H. unfold send, log, transmit, bind. simpl. rewrite H. simpl. auto.
Qed.

Lemma get_opt_app pre l k :
  ~ In (PyStr.lower k) (map (fun kv => PyStr.lower (fst kv)) pre) ->
  Headers.get_opt (pre ++ l) k = Headers.get_opt l k.
Proof.
  induction pre as [|[k0 v0] pre IH]; simpl; intros H; [reflexivity|].
  destruct (String.eqb_spec (PyStr.lower k0) (PyStr.lower k)) as [E|N]; [tauto|].
  apply IH. tauto.
Qed.

(** With distinct names every header line is looked up to its own
    value. *)
Lemma getitem_own_value pre k v rest :
  distinct_names (pre ++ (k, v) :: rest) ->
  Headers.getitem_fmt (pre ++ (k, v) :: rest) k = v.
Proof.
  unfold distinct_names, Headers.getitem_fmt. rewrite map_app. simpl. intros H.
  apply NoDup_remove_2 in H. rewrite get_opt_app.
  - simpl. now rewrite String.eqb_refl.
  - intros I. apply H. apply in_or_app. now left.
Qed.

Lemma send_headers_distinct e h :
  distinct_names h -> (forall i, hs_send e i = SendsAll) ->
  forall rest pre i w, h = pre ++ rest ->
  fst (send_headers e h i (Headers.iter rest) w) = Ok tt
  /\ sent (snd (send_headers e h i (Headers.iter rest) w)) backend
     = sent w backend ++ PyStr.encode (spec_header_block rest)
  /\ sent (snd (send_headers e h i (Headers.iter rest) w)) client = sent w client.
Proof.
  intros D A. induction rest as [|[k v] rest IH]; intros pre i w E.
  - simpl. unfold ret. simpl. now rewrite app_nil_r.
  - assert (L : header_line h k = spec_header_line (k, v)).
    { unfold header_line, spec_header_line. simpl. subst h.
      now rewrite (getitem_own_value pre k v rest D). }
    change (send_headers e h i (Headers.iter ((k, v) :: rest)) w)
      with ((send e i (PyStr.encode (header_line h k)) ;;
             send_headers e h (S i) (Headers.iter rest)) w).
    rewrite L.
    destruct (send_all e i (PyStr.encode (spec_header_line (k, v))) w (A i)) as (R & B & C).
    destruct (send e i (PyStr.encode (spec_header_line (k, v))) w) as [[[]|ex] w1] eqn:E1;
      simpl in R, B, C; try discriminate.
    rewrite (bind_ok _ _ _ _ _ E1).
    destruct (IH (pre ++ [(k, v)]) (S i) w1) as (R1 & B1 & C1).
    { subst h. now rewrite <- app_assoc. }
    split; [exact R1|]. split.
    + rewrite B1, B. change (spec_header_block ((k, v) :: rest))
        with (spec_header_line (k, v) ++ spec_header_block rest)%string.
      rewrite encode_app. now rewrite app_assoc.
    + now rewrite C1.
Qed.

(** Where the forwarder is right: when no two header lines share a
    name and every [send] takes its whole buffer, the backend is sent
    the encoded handshake text of the request and nothing else. *)
Lemma forward_handshake_distinct_names r e w :
  distinct_names (headers r) -> (forall i, hs_send e i = SendsAll) ->
  fst (forward_handshake r e w) = Ok tt
  /\ sent (snd (forward_handshake r e w)) backend
     = sent w backend ++ PyStr.encode (handshake_text r).
Proof.
  intros D A. unfold forward_handshake.
  destruct (send_all e 0 (PyStr.encode (request_line r)) w (A 0)) as (R & B & _).
  destruct (send e 0 (PyStr.encode (request_line r)) w) as [[[]|ex] w1] eqn:E1;
    simpl in R, B; try discriminate.
  rewrite (bind_ok _ _ _ _ _ E1).
  destruct (send_headers_distinct e (headers r) D A (headers r) [] 1 w1 eq_refl)
    as (R1 & B1 & _).
  destruct (send_headers e (headers r) 1 (Headers.iter (headers r)) w1)
    as [[[]|ex] w2] eqn:E2; simpl in R1, B1; try discriminate.
  rewrite (bind_ok _ _ _ _ _ E2).
  destruct (send_all e (S (List.length (headers r))) (PyStr.encode PyStr.CRLF) w2
              (A _)) as (R2 & B2 & _).
  split; [exact R2|]. rewrite B2, B1, B.
  unfold handshake_text, request_line.
  repeat (rewrite encode_app). rewrite <- !app_assoc. reflexivity.
Qed.

(** C2, at the failing input. Two header lines share the name
    [Sec-WebSocket-Protocol]: [self.headers[header]] returns the value
    of the first line for both, so the backend is sent the handshake of
    a request that offers [chat] twice, not the handshake of the
    request received. *)
Theorem duplicate_header_value_replaced :
  sent (snd (handle_websocket req_two_protocols (env_of []) (entry true))) backend
    = PyStr.encode (handshake_text req_first_protocol_twice)
  /\ sent (snd (handle_websocket req_two_protocols (env_of []) (entry true))) backend
     <> PyStr.encode (handshake_text req_two_protocols).
Proof.
  split; [reflexivity|]. intros H. vm_compute in H. discriminate.
Qed.

(* ------------------------------------------------------------------ *)
(** ** What does hold of the loop condition *)

Lemma relay_loop_waits_when_idle ts : forall w,
  sockets w <> [] ->
  Forall (fun t => (forall s, ready_r t s = false) /\ (forall s, ready_x t s = false)) ts ->
  fst (relay_loop ts w) = Ok LoopWaiting
  /\ sockets (snd (relay_loop ts w)) = sockets w
  /\ is_open (snd (relay_loop ts w)) = is_open w.
Proof.
  induction ts as [|t ts IH]; intros w Hs Hf.
  - rewrite relay_loop_nil by assumption. auto.
  - rewrite relay_loop_cons by assumption.
    inversion Hf as [|? ? [Hr Hx] Hts]; subst.
    unfold bind. rewrite (relay_pass_idle t w Hr Hx).
    apply (IH (snd (log (CSelect (sockets w)) w)) Hs Hts).
Qed.

(** The state in which the loop starts when connect and handshake went
    through: both sockets watched and open. *)
Lemma start_relay_state w a w1 :
  both_open w -> start_relay w = (Ok a, w1) ->
  sockets w1 = [client; backend] /\ both_open w1.
Proof.
  intros Hb H. unfold start_relay, setblocking0, log, set_nonblocking, set_sockets, bind, ret in H.
  simpl in H. inversion H; subst. split; [reflexivity | exact Hb].
Qed.

(* ------------------------------------------------------------------ *)
(** ** Request logging (lines 86-92) *)

Lemma startswith_app s p :
  startswith s p = true <-> exists rest, s = (p ++ rest)%string.
Proof.
  revert s. induction p as [|a p IH]; intros s; simpl.
  - split; [intros _; exists s; reflexivity | reflexivity].
  - destruct s as [|b s]; simpl.
    + split; [discriminate | intros [rest H]; discriminate].
    + rewrite andb_true_iff, Ascii.eqb_eq, IH. split.
      * intros [-> [rest ->]]. exists rest. reflexivity.
      * intros [rest H]. inversion H; subst. split; [reflexivity | exists rest; reflexivity].
Qed.

(** X14. A request is left out of the log exactly when its path begins with
    one of the four texts of line 88; every other request writes one
    line, the formatted message after host and date. *)
Theorem log_message_quiet_iff (p host date message : string) :
  (log_message (Some p) host date message = LogWrites []
   <-> exists q rest, In q quiet_prefixes /\ p = (q ++ rest)%string)
  /\ (log_message (Some p) host date message = LogWrites [log_line host date message]
      <-> forall q rest, In q quiet_prefixes -> p <> (q ++ rest)%string).
Proof.
  unfold log_message.
  destruct (existsb (fun q => startswith p q) quiet_prefixes) eqn:E; simpl.
  - apply existsb_exists in E. destruct E as (q & Hq & Hs).
    apply startswith_app in Hs. destruct Hs as [rest Hr].
    split; split.
    + intros _. exists q, rest. auto.
    + reflexivity.
    + discriminate.
    + intros H. exfalso. exact (H q rest Hq Hr).
  - assert (N : forall q rest, In q quiet_prefixes -> p <> (q ++ rest)%string).
    { intros q rest Hq Hr.
      assert (X : existsb (fun q => startswith p q) quiet_prefixes = true).
      { apply existsb_exists. exists q. split; [exact Hq|].
        apply startswith_app. eauto. }
      congruence. }
    split; split.
    + discriminate.
    + intros (q & rest & Hq & Hr). exfalso. exact (N q rest Hq Hr).
    + intros _. exact N.
    + reflexivity.
Qed.

(** X15. For a path that begins with a slash, as request paths do, the
    entries [.js] and [.wasm] of line 88 never apply: the request is
    logged unless the path lies under [/pkg/] or [/assets/], whatever
    its ending. *)
Theorem log_message_slash_path (rest host date message : string) :
  startswith (String "/" rest) "/pkg/" = false ->
  startswith (String "/" rest) "/assets/" = false ->
  log_message (Some (String "/" rest)) host date message
  = LogWrites [log_line host date message].
Proof.
  intros H1 H2. unfold log_message, quiet_prefixes.
  cbn [existsb]. rewrite H1, H2. reflexivity.
Qed.

Lemma log_message_slash_path_witness :
  log_message (Some "/game.js"%string) "10.0.0.7" "03/Nov/2026 10:00:00" "GET"
  = LogWrites [log_line "10.0.0.7" "03/Nov/2026 10:00:00" "GET"].
Proof.
  exact (log_message_slash_path "game.js" "10.0.0.7" "03/Nov/2026 10:00:00" "GET"
           eq_refl eq_refl).
Defined.

(* ------------------------------------------------------------------ *)
(** ** Which exceptions can leave the relay loop *)

Lemma contained_ret {A} (a : A) : contained (ret a).
Proof. intros w H. simpl. auto. Qed.

Lemma contained_bind {A B} (m : M A) (k : A -> M B) :
  contained m -> (forall a, contained (k a)) -> contained (bind m k).
Proof.
  intros Hm Hk w Hw. unfold bind. destruct (Hm w Hw) as (W & O & R).
  destruct (m w) as [[a|ex] w1]; simpl in *.
  - destruct (Hk a w1 W) as (W2 & O2 & R2).
    split; [exact W2 | split; [auto | exact R2]].
  - auto.
Qed.

Lemma contained_for_each {A} (l : list A) body :
  (forall x, contained (body x)) -> contained (for_each l body).
Proof.
  intros Hb. induction l as [|x l IH]; simpl.
  - apply contained_ret.
  - apply contained_bind; [apply Hb | intros _; exact IH].
Qed.

Lemma contained_handle_readable t s : contained (handle_readable t s).
Proof.
  intros w Hw. split; [apply wf_handle_readable; exact Hw|].
  destruct Hw as [Hnd Hm].
  wf_cases w Hnd Hm Hc Hb;
    step_unfold; destruct s; rewrite <- ?Hc, <- ?Hb; simpl; break_oracle;
    rewrite <- ?Hc, <- ?Hb; simpl;
    try (match goal with |- context [match ?o with Some _ => _ | None => _ end] =>
           destruct o as [[|]|]; simpl end);
    rewrite <- ?Hc, <- ?Hb; simpl;
    (split; [intros; congruence | auto]).
Qed.

Lemma contained_relay_pass t : contained (relay_pass t).
Proof.
  intros w Hw. rewrite relay_pass_unfold.
  set (w0 := snd (log (CSelect (sockets w)) w)).
  assert (W0 : wf w0) by exact Hw.
  destruct (for_each_exceptional_ok (filter (ready_x t) (sockets w)) w0 W0)
    as (R1 & W1 & O1).
  { apply NoDup_filter. exact (proj1 Hw). }
  { intros s Hs. apply filter_In in Hs. apply mem_In. exact (proj1 Hs). }
  unfold bind.
  destruct (for_each (filter (ready_x t) (sockets w)) handle_exceptional w0)
    as [[[]|ex] w1]; simpl in R1, W1, O1; try discriminate.
  destruct (contained_for_each (filter (ready_r t) (sockets w)) (handle_readable t)
              (contained_handle_readable t) w1 W1) as (W2 & O2 & R2).
  split; [exact W2 | split; [|exact R2]].
  intros H. apply O2. rewrite O1. exact H.
Qed.

Lemma contained_relay_loop ts : contained (relay_loop ts).
Proof.
  induction ts as [|t ts IH]; intros w Hw.
  - simpl. unfold bind, get_sockets. destruct (sockets w); simpl; auto.
  - destruct (sockets w) as [|a l] eqn:E.
    + rewrite relay_loop_empty by assumption. simpl. auto.
    + rewrite relay_loop_cons by (rewrite E; discriminate).
      apply (contained_bind (relay_pass t) (fun _ => relay_loop ts)
               (contained_relay_pass t) (fun _ => IH) w Hw).
Qed.

(** [sockets] is never reordered: it starts as [[client; backend]]
    (line 51) and only loses elements, so the client is never behind
    the backend. *)
Lemma client_first_handle_exceptional s :
  preserves (fun w => wf w /\ sockets w <> [backend; client]) (handle_exceptional s).
Proof.
  intros w [[Hnd Hm] Ho]. split; [apply wf_handle_exceptional; split; assumption|].
  wf_cases w Hnd Hm Hc Hb; try congruence; step_unfold; destruct s; simpl; discriminate.
Qed.

Lemma client_first_handle_readable t s :
  preserves (fun w => wf w /\ sockets w <> [backend; client]) (handle_readable t s).
Proof.
  intros w [[Hnd Hm] Ho]. split; [apply wf_handle_readable; split; assumption|].
  wf_cases w Hnd Hm Hc Hb; try congruence;
    step_unfold; destruct s; rewrite <- ?Hc, <- ?Hb; simpl; break_oracle;
    rewrite <- ?Hc, <- ?Hb; simpl;
    try (match goal with |- context [match ?o with Some _ => _ | None => _ end] =>
           destruct o as [[|]|]; simpl end);
    rewrite <- ?Hc, <- ?Hb; simpl; discriminate.
Qed.

Lemma client_first_relay_pass t :
  preserves (fun w => wf w /\ sockets w <> [backend; client]) (relay_pass t).
Proof.
  apply preserves_relay_pass;
    auto using client_first_handle_exceptional, client_first_handle_readable.
  intros l w H. exact H.
Qed.

(** With [other] bound, the body of the readable loop returns unless it
    is run on a client that was already closed in this pass. *)
Lemma handle_readable_returns t s w :
  wf w -> other w <> None -> (s = client -> is_open w client = true) ->
  fst (handle_readable t s w) = Ok tt.
Proof.
  intros [Hnd Hm] Ho Hcl.
  wf_cases w Hnd Hm Hc Hb;
    step_unfold; destruct s; try specialize (Hcl eq_refl);
    rewrite <- ?Hc, <- ?Hb; simpl; break_oracle;
    rewrite <- ?Hc, <- ?Hb; simpl;
    try (match goal with |- context [match ?o with Some _ => _ | None => _ end] =>
           destruct o as [[|]|]; simpl end);
    rewrite <- ?Hc, <- ?Hb; simpl; first [reflexivity | congruence].
Qed.

Lemma handle_exceptional_keeps_open x v w :
  x <> v -> is_open (snd (handle_exceptional x w)) v = is_open w v.
Proof.
  intros N. step_unfold. destruct (mem x (sockets w)); simpl; [|reflexivity].
  unfold upd. destruct (sock_eqb_spec v x); [congruence | reflexivity].
Qed.

Lemma exceptional_phase_keeps_open v l : forall w,
  ~ In v l -> is_open (snd (for_each l handle_exceptional w)) v = is_open w v.
Proof.
  induction l as [|x l IH]; intros w N; simpl; [reflexivity|].
  assert (Nx : x <> v) by (intros ->; apply N; now left).
  pose proof (handle_exceptional_keeps_open x v w Nx) as K.
  unfold bind. destruct (handle_exceptional x w) as [[[]|ex] w1]; simpl in *; [|exact K].
  rewrite IH; [exact K | intros H; apply N; now right].
Qed.

Lemma for_each_cons_returns {A} (body : A -> M unit) x l w :
  fst (body x w) = Ok tt ->
  fst (for_each (x :: l) body w) = fst (for_each l body (snd (body x w))).
Proof.
  intros H. simpl. unfold bind. destruct (body x w) as [[[]|ex] w1]; simpl in *;
    [reflexivity | discriminate].
Qed.

Lemma readable_phase_returns t l w :
  wf w -> other w <> None -> NoDup l -> l <> [backend; client] ->
  (In client l -> is_open w client = true) ->
  fst (for_each l (handle_readable t) w) = Ok tt.
Proof.
  intros Hw Ho Hnd Hl Hcl.
  destruct (nodup_sock_cases l Hnd) as [ -> | [ -> | [ -> | [ -> | -> ] ] ] ];
    try congruence.
  - reflexivity.
  - rewrite for_each_cons_returns; [reflexivity|].
    apply handle_readable_returns; auto. intros _. apply Hcl. now left.
  - rewrite for_each_cons_returns; [reflexivity|].
    apply handle_readable_returns; auto. discriminate.
  - rewrite for_each_cons_returns.
    + destruct (contained_handle_readable t client w Hw) as (W2 & O2 & _).
      rewrite for_each_cons_returns; [reflexivity|].
      apply handle_readable_returns; auto. discriminate.
    + apply handle_readable_returns; auto. intros _. apply Hcl. now left.
Qed.

Lemma relay_pass_returns t w :
  wf w -> sockets w <> [backend; client] -> other w <> None ->
  ready_x t client && ready_r t client = false ->
  fst (relay_pass t w) = Ok tt.
Proof.
  intros Hw Hord Ho Hxr. rewrite relay_pass_unfold.
  set (w0 := snd (log (CSelect (sockets w)) w)).
  assert (W0 : wf w0) by exact Hw.
  destruct (for_each_exceptional_ok (filter (ready_x t) (sockets w)) w0 W0)
    as (R1 & W1 & O1).
  { apply NoDup_filter. exact (proj1 Hw). }
  { intros s Hs. apply filter_In in Hs. apply mem_In. exact (proj1 Hs). }
  pose proof (exceptional_phase_keeps_open client (filter (ready_x t) (sockets w)) w0) as K.
  unfold bind.
  destruct (for_each (filter (ready_x t) (sockets w)) handle_exceptional w0)
    as [[[]|ex] w1]; simpl in R1, W1, O1, K; try discriminate.
  apply readable_phase_returns.
  - exact W1.
  - rewrite O1. exact Ho.
  - apply NoDup_filter. exact (proj1 Hw).
  - destruct (nodup_sock_cases _ (proj1 Hw)) as [E|[E|[E|[E|E]]]];
      try contradiction; rewrite E; simpl;
      destruct (ready_r t client), (ready_r t backend); discriminate.
  - intros Hin. apply filter_In in Hin. destruct Hin as [Hin Hr].
    rewrite K.
    + change (is_open w0 client) with (is_open w client).
      rewrite <- (proj2 Hw). apply mem_In. exact Hin.
    + intros Hx. apply filter_In in Hx. destruct Hx as [_ Hx].
      rewrite Hx, Hr in Hxr. discriminate.
Qed.

(** X4. Once a non-empty chunk has been read on either side ([other] is
    bound), the relay loop cannot raise any more, as long as no pass
    reports the client both exceptional and readable: it goes on until
    the watched list is empty or the schedule is used up, whatever the
    sockets do. *)
Theorem relay_loop_safe_once_other_bound (ts : list tick) (w : world) :
  wf w -> sockets w <> [backend; client] -> other w <> None ->
  Forall (fun t => ready_x t client && ready_r t client = false) ts ->
  exists x, fst (relay_loop ts w) = Ok x.
Proof.
  revert w. induction ts as [|t ts IH]; intros w Hw Hord Ho Hts.
  - simpl. unfold bind, get_sockets. destruct (sockets w); simpl; eauto.
  - destruct (sockets w) as [|a l] eqn:E.
    + rewrite relay_loop_empty by assumption. simpl. eauto.
    + rewrite relay_loop_cons by (rewrite E; discriminate).
      inversion Hts as [|? ? Ht Hts']; subst.
      assert (Hord' : sockets w <> [backend; client]) by (rewrite E; exact Hord).
      pose proof (relay_pass_returns t w Hw Hord' Ho Ht) as R.
      destruct (contained_relay_pass t w Hw) as (_ & O1 & _).
      destruct (client_first_relay_pass t w (conj Hw Hord')) as (W1 & Hord1).
      unfold bind. destruct (relay_pass t w) as [[[]|ex] w1]; simpl in *;
        try discriminate.
      apply IH; auto.
Qed.

Lemma wf_relay_after_chunk : wf relay_after_chunk.
Proof.
  split; [repeat constructor; simpl; intuition congruence | intros []; reflexivity].
Qed.

Lemma relay_loop_safe_once_other_bound_witness :
  exists x, fst (relay_loop [eof_tick backend; read_error_tick client] relay_after_chunk)
            = Ok x.
Proof.
  apply (relay_loop_safe_once_other_bound
           [eof_tick backend; read_error_tick client] relay_after_chunk
           wf_relay_after_chunk).
  - simpl. discriminate.
  - simpl. discriminate.
  - repeat constructor.
Defined.

Lemma open_backend_connected e w :
  connect_ok e = true -> fst (open_backend e w) = Ok tt.
Proof.
  intros H. unfold open_backend, new_backend, connect, log, set_open, bind, ret. simpl.
  now rewrite H.
Qed.

Lemma send_returns e i d w :
  hs_send e i <> SendRaises -> fst (send e i d w) = Ok tt.
Proof.
  intros H. unfold send, log, transmit, bind. simpl.
  destruct (hs_send e i); [reflexivity | reflexivity | congruence].
Qed.

Lemma send_headers_returns e h names :
  (forall i, hs_send e i <> SendRaises) ->
  forall i w, fst (send_headers e h i names w) = Ok tt.
Proof.
  intros H. induction names as [|n names IH]; intros i w; simpl; [reflexivity|].
  pose proof (send_returns e i (PyStr.encode (header_line h n)) w (H i)) as R.
  unfold bind. destruct (send e i (PyStr.encode (header_line h n)) w) as [[[]|ex] w1];
    simpl in R; try discriminate. apply IH.
Qed.

Lemma forward_handshake_returns r e w :
  (forall i, hs_send e i <> SendRaises) -> fst (forward_handshake r e w) = Ok tt.
Proof.
  intros H. unfold forward_handshake.
  pose proof (send_returns e 0 (PyStr.encode (request_line r)) w (H 0)) as R.
  unfold bind at 1. destruct (send e 0 (PyStr.encode (request_line r)) w) as [[[]|ex] w1];
    simpl in R; try discriminate.
  pose proof (send_headers_returns e (headers r) (Headers.iter (headers r)) H 1 w1) as R1.
  unfold bind. destruct (send_headers e (headers r) 1 (Headers.iter (headers r)) w1)
    as [[[]|ex] w2]; simpl in R1; try discriminate.
  apply send_returns. apply H.
Qed.

(** X5. When the backend accepts the connection and no handshake [send]
    raises, a 502 answer never comes from a socket error of the relay:
    the inner [except socket.error] catches them all, and the only
    exceptions that reach the 502 branch are the read of the unbound
    [other] (line 70) and the failed [sockets.remove(s)] (line 68). *)
Theorem relay_502_not_from_socket_error
    (r : request) (e : env) (cc : bool) (ex : exn) :
  connect_ok e = true -> (forall i, hs_send e i <> SendRaises) ->
  fst (handle_websocket r e (entry cc)) = Ok (GatewayError ex) ->
  ex = UnboundLocalError \/ ex = ValueError.
Proof.
  intros Hc Hs H.
  pose proof (open_backend_connected e (entry cc) Hc) as R1.
  destruct (open_backend e (entry cc)) as [[[]|ex1] w1] eqn:E1; simpl in R1; try discriminate.
  pose proof (forward_handshake_returns r e w1 Hs) as R2.
  destruct (forward_handshake r e w1) as [[[]|ex2] w2] eqn:E2; simpl in R2; try discriminate.
  destruct (start_relay w2) as [[[]|ex3] w3] eqn:E3; [|discriminate].
  assert (O1 : both_open w1)
    by (apply (open_backend_ok e (entry cc) tt w1); [reflexivity | exact E1]).
  assert (O2 : both_open w2).
  { pose proof (both_open_forward_handshake r e w1 O1) as P. now rewrite E2 in P. }
  assert (W3 : wf w3) by (apply (start_relay_ok w2 tt w3 O2 E3)).
  destruct (contained_relay_loop (ticks e) w3 W3) as (_ & _ & R4).
  unfold handle_websocket, try_except in H.
  rewrite (bind_ok _ _ _ _ _ E1), (bind_ok _ _ _ _ _ E2), (bind_ok _ _ _ _ _ E3) in H.
  destruct (relay_loop (ticks e) w3) as [[x|ex4] w4] eqn:E4; simpl in R4.
  - rewrite (bind_ok _ _ _ _ _ E4) in H. destruct x; simpl in H; discriminate.
  - rewrite (bind_raise _ _ _ _ _ E4) in H. simpl in H.
    unfold send_error, set_close_connection, log, bind, ret, raise in H. simpl in H.
    destruct (reply_ok e); simpl in H; [|discriminate].
    inversion H; subst. destruct R4 as [[-> _]| ->]; auto.
Qed.

Lemma relay_502_not_from_socket_error_witness :
  UnboundLocalError = UnboundLocalError \/ UnboundLocalError = ValueError.
Proof.
  refine (relay_502_not_from_socket_error req_ws (env_of [eof_tick backend]) true
            UnboundLocalError eq_refl (fun i => ltac:(discriminate)) _).
  vm_compute. reflexivity.
Defined.

(* ------------------------------------------------------------------ *)
(** ** How [handle_websocket] returns (lines 26-84) *)







(* ------------------------------------------------------------------ *)
(** ** More on the loop bodies (lines 53-77) *)

(** X1. Whatever the sockets do, at every point of the relay the watched
    list has no duplicates and holds exactly the sockets that are
    open: a socket is closed when, and only when, it is removed. *)
Theorem relay_loop_watches_open_sockets (ts : list tick) (w : world) :
  wf w ->
  NoDup (sockets (snd (relay_loop ts w)))
  /\ forall s, In s (sockets (snd (relay_loop ts w)))
               <-> is_open (snd (relay_loop ts w)) s = true.
Proof.
  intros Hw. destruct (wf_relay_loop ts w Hw) as [Hnd Hm]. split; [exact Hnd|].
  intros s. rewrite <- mem_In, Hm. reflexivity.
Qed.

Lemma relay_loop_watches_open_sockets_witness :
  NoDup (sockets (snd (relay_loop [exceptional_tick client; eof_tick backend]
                                  (relay_start []))))
  /\ forall s, In s (sockets (snd (relay_loop [exceptional_tick client; eof_tick backend]
                                              (relay_start []))))
               <-> is_open (snd (relay_loop [exceptional_tick client; eof_tick backend]
                                            (relay_start []))) s = true.
Proof.
  exact (relay_loop_watches_open_sockets [exceptional_tick client; eof_tick backend]
           (relay_start []) (wf_relay_start [])).
Defined.

(** X6. End of stream on the socket whose chunk was forwarded last ([other]
    names its partner): the body returns normally with both sockets
    removed from the watched list and closed. *)
Theorem eof_after_own_chunk_closes_pair (t : tick) (s : sock) (w : world) :
  wf w -> is_open w s = true -> recv_out t s = RecvBytes [] ->
  other w = Some (partner s) ->
  fst (handle_readable t s w) = Ok tt
  /\ both_torn_down (snd (handle_readable t s w)).
Proof.
  intros Hw Ho Hr Hp. pose proof (handle_readable_eof t s w Hw Ho Hr) as H.
  rewrite Hp in H. destruct s; simpl in H; exact H.
Qed.

Lemma eof_after_own_chunk_closes_pair_witness :
  both_torn_down (snd (handle_readable (eof_tick client) client relay_after_chunk)).
Proof.
  exact (proj2 (eof_after_own_chunk_closes_pair (eof_tick client) client relay_after_chunk
                  wf_relay_after_chunk eq_refl eq_refl eq_refl)).
Defined.

Lemma closed_unread_handle_exceptional r0 s x :
  preserves (fun w => is_open w s = false /\ rcvd w s = r0) (handle_exceptional x).
Proof.
  intros w [Hc Hr]. step_unfold. destruct (mem x (sockets w)); simpl; [|auto].
  unfold upd. destruct (sock_eqb s x); auto.
Qed.

Lemma closed_unread_handle_readable r0 t x :
  preserves (fun w => wf w /\ is_open w backend = false /\ rcvd w backend = r0)
    (handle_readable t x).
Proof.
  intros w (Hw & Hcl & Hrc). split; [apply wf_handle_readable; exact Hw|].
  destruct Hw as [Hnd Hm].
  wf_cases w Hnd Hm Hc Hb;
    step_unfold; destruct x; rewrite <- ?Hc, <- ?Hb; simpl; break_oracle;
    rewrite <- ?Hc, <- ?Hb; simpl;
    try (match goal with |- context [match ?o with Some _ => _ | None => _ end] =>
           destruct o as [[|]|]; simpl end);
    rewrite <- ?Hc, <- ?Hb; simpl; unfold upd; simpl;
    rewrite <- ?Hc, <- ?Hb in Hcl; try discriminate; auto.
Qed.

Lemma exceptional_phase l : forall w s,
  wf w -> NoDup l -> (forall x, In x l -> mem x (sockets w) = true) -> In s l ->
  is_open (snd (for_each l handle_exceptional w)) s = false
  /\ rcvd (snd (for_each l handle_exceptional w)) s = rcvd w s.
Proof.
  induction l as [|x l IH]; intros w s Hw Hnd Hin Hs; [destruct Hs|].
  inversion Hnd as [|? ? Hx Hl]; subst.
  destruct (handle_exceptional_drops x w Hw (Hin x (or_introl eq_refl)))
    as [(R & _ & _ & Cx & Mp & _) _].
  pose proof (wf_handle_exceptional x w Hw) as W1.
  assert (Rc : rcvd (snd (handle_exceptional x w)) = rcvd w).
  { step_unfold. destruct (mem x (sockets w)); reflexivity. }
  simpl. unfold bind.
  destruct (handle_exceptional x w) as [[[]|ex] w1]; simpl in *; try discriminate.
  destruct Hs as [<-|Hs].
  - apply (preserves_for_each _ l handle_exceptional
             (closed_unread_handle_exceptional (rcvd w x) x) w1).
    rewrite Rc. auto.
  - rewrite <- Rc. apply IH; try assumption.
    intros y Hy. assert (y = partner x).
    { destruct y, x; try reflexivity; exfalso; apply Hx; exact Hy. }
    subst y. rewrite Mp. apply Hin. now right.
Qed.

(** X7. A backend that [select] reports exceptional is closed unread: its
    descriptor is gone after [close()], so even if the same pass
    reports it readable, nothing is received from it in that pass,
    and after the pass it is closed and unwatched. *)
Theorem exceptional_backend_is_not_read (t : tick) (w : world) :
  wf w -> mem backend (sockets w) = true -> ready_x t backend = true ->
  rcvd (snd (relay_pass t w)) backend = rcvd w backend
  /\ is_open (snd (relay_pass t w)) backend = false
  /\ mem backend (sockets (snd (relay_pass t w))) = false.
Proof.
  intros Hw Hs Hx. rewrite relay_pass_unfold.
  set (w0 := snd (log (CSelect (sockets w)) w)).
  assert (W0 : wf w0) by exact Hw.
  assert (Hnd : NoDup (filter (ready_x t) (sockets w)))
    by (apply NoDup_filter; exact (proj1 Hw)).
  assert (Hin : forall x, In x (filter (ready_x t) (sockets w)) -> mem x (sockets w0) = true).
  { intros x Hi. apply filter_In in Hi. apply mem_In. exact (proj1 Hi). }
  assert (Hsl : In backend (filter (ready_x t) (sockets w))).
  { apply filter_In. split; [apply mem_In; exact Hs | exact Hx]. }
  destruct (for_each_exceptional_ok _ w0 W0 Hnd Hin) as (R1 & W1 & _).
  destruct (exceptional_phase _ w0 backend W0 Hnd Hin Hsl) as (C1 & Rc1).
  unfold bind.
  destruct (for_each (filter (ready_x t) (sockets w)) handle_exceptional w0)
    as [[[]|ex] w1]; simpl in R1, W1, C1, Rc1; try discriminate.
  destruct (preserves_for_each _ (filter (ready_r t) (sockets w)) (handle_readable t)
              (closed_unread_handle_readable (rcvd w backend) t) w1
              (conj W1 (conj C1 Rc1))) as (W2 & C2 & Rc2).
  split; [exact Rc2 | split; [exact C2|]].
  rewrite (proj2 W2). exact C2.
Qed.

Lemma exceptional_backend_is_not_read_witness :
  rcvd (snd (relay_pass (mkTick (fun _ => true) (fun s => sock_eqb s backend)
                           (fun _ => RecvBytes ["h"%byte]) (fun _ => SentAll))
                        (relay_start []))) backend = [].
Proof.
  exact (proj1 (exceptional_backend_is_not_read
                  (mkTick (fun _ => true) (fun s => sock_eqb s backend)
                     (fun _ => RecvBytes ["h"%byte]) (fun _ => SentAll))
                  (relay_start []) (wf_relay_start []) eq_refl eq_refl)).
Defined.

Lemma handle_readable_closed_client_data t w x d :
  wf w -> is_open w client = false -> recv_out t client = RecvBytes (x :: d) ->
  wf (snd (handle_readable t client w))
  /\ is_open (snd (handle_readable t client w)) client = false
  /\ rcvd (snd (handle_readable t client w)) client = rcvd w client ++ x :: d.
Proof.
  intros Hw Hcl Hr. split; [apply wf_handle_readable; exact Hw|].
  pose proof (proj2 Hw client) as Hm. rewrite Hcl in Hm.
  step_unfold. rewrite Hr. simpl.
  destruct (is_open w backend); simpl; [destruct (sendall_out t backend); simpl|];
    rewrite ?Hm; simpl; unfold upd; simpl; auto.
Qed.

Lemma closed_client_handle_readable_backend r0 t :
  preserves (fun w => wf w /\ is_open w client = false /\ rcvd w client = r0)
    (handle_readable t backend).
Proof.
  intros w (Hw & Hcl & Hrc). split; [apply wf_handle_readable; exact Hw|].
  destruct Hw as [Hnd Hm].
  wf_cases w Hnd Hm Hc Hb;
    step_unfold; rewrite <- ?Hc, <- ?Hb; simpl; break_oracle;
    rewrite <- ?Hc, <- ?Hb; simpl;
    try (match goal with |- context [match ?o with Some _ => _ | None => _ end] =>
           destruct o as [[|]|]; simpl end);
    rewrite <- ?Hc, <- ?Hb; simpl; unfold upd; simpl;
    rewrite <- ?Hc, <- ?Hb in Hcl; try discriminate; auto.
Qed.

(** X17. The client is different: [rfile] keeps its descriptor alive
    after [client.close()], so a client that one pass reports both
    exceptional and readable is closed and unwatched at lines 56-57
    and still read at line 62 of the same pass. *)
Theorem closed_client_is_still_read
    (t : tick) (w : world) (rest : list sock) (x : byte) (d : list byte) :
  wf w -> sockets w = client :: rest ->
  ready_x t client = true -> ready_r t client = true ->
  recv_out t client = RecvBytes (x :: d) ->
  rcvd (snd (relay_pass t w)) client = rcvd w client ++ x :: d
  /\ is_open (snd (relay_pass t w)) client = false
  /\ mem client (sockets (snd (relay_pass t w))) = false.
Proof.
  intros Hw Hs Hx Hr He. rewrite relay_pass_unfold.
  set (w0 := snd (log (CSelect (sockets w)) w)).
  assert (W0 : wf w0) by exact Hw.
  assert (Hnd : NoDup (filter (ready_x t) (sockets w)))
    by (apply NoDup_filter; exact (proj1 Hw)).
  assert (Hin : forall y, In y (filter (ready_x t) (sockets w)) -> mem y (sockets w0) = true).
  { intros y Hi. apply filter_In in Hi. apply mem_In. exact (proj1 Hi). }
  assert (Hsl : In client (filter (ready_x t) (sockets w))).
  { apply filter_In. split; [rewrite Hs; now left | exact Hx]. }
  destruct (for_each_exceptional_ok _ w0 W0 Hnd Hin) as (R1 & W1 & _).
  destruct (exceptional_phase _ w0 client W0 Hnd Hin Hsl) as (C1 & Rc1).
  assert (Hrest : filter (ready_r t) rest = [] \/ filter (ready_r t) rest = [backend]).
  { pose proof (proj1 Hw) as N. rewrite Hs in N.
    destruct (nodup_sock_cases _ N) as [E|[E|[E|[E|E]]]]; inversion E; subst; simpl;
      [|destruct (ready_r t backend)]; auto. }
  unfold bind.
  destruct (for_each (filter (ready_x t) (sockets w)) handle_exceptional w0)
    as [[[]|ex] w1]; simpl in R1, W1, C1, Rc1; try discriminate.
  rewrite Hs. simpl. rewrite Hr. simpl. unfold bind.
  destruct (handle_readable_closed_client_data t w1 x d W1 C1 He) as (W2 & C2 & Rc2).
  rewrite Rc1 in Rc2. change (rcvd w0 client) with (rcvd w client) in Rc2.
  assert (G : forall u, wf u /\ is_open u client = false
                        /\ rcvd u client = rcvd w client ++ x :: d ->
                        rcvd u client = rcvd w client ++ x :: d
                        /\ is_open u client = false /\ mem client (sockets u) = false).
  { intros u (Wu & Cu & Ru). rewrite (proj2 Wu). auto. }
  destruct (handle_readable t client w1) as [[[]|ex] w2]; simpl in W2, C2, Rc2;
    [|apply G; auto].
  destruct Hrest as [-> | ->]; simpl; [apply G; auto|].
  pose proof (closed_client_handle_readable_backend (rcvd w client ++ x :: d) t w2
                (conj W2 (conj C2 Rc2))) as P.
  unfold bind. destruct (handle_readable t backend w2) as [[[]|ex] w3]; simpl in *;
    apply G; exact P.
Qed.

Lemma closed_client_is_still_read_witness :
  rcvd (snd (relay_pass (mkTick (fun _ => true) (fun s => sock_eqb s client)
                           (fun _ => RecvBytes ["h"%byte]) (fun _ => SentAll))
                        (relay_start []))) client = [] ++ ["h"%byte].
Proof.
  exact (proj1 (closed_client_is_still_read
                  (mkTick (fun _ => true) (fun s => sock_eqb s client)
                     (fun _ => RecvBytes ["h"%byte]) (fun _ => SentAll))
                  (relay_start []) [backend] "h"%byte [] (wf_relay_start [])
                  eq_refl eq_refl eq_refl eq_refl)).
Defined.

Lemma handle_readable_closed_client_eof t w :
  wf w -> is_open w client = false -> recv_out t client = RecvBytes [] ->
  fst (handle_readable t client w) = Raise ValueError.
Proof.
  intros Hw Hcl Hr. step_unfold. rewrite Hr. simpl.
  rewrite (proj2 Hw), Hcl. reflexivity.
Qed.

(** X16. The client's descriptor outlives [client.close()], so a client
    that one pass reports both exceptional and readable is closed and
    unwatched by line 56-57 and then read at line 62; at end of stream
    [sockets.remove(s)] (line 68) finds it gone and raises
    [ValueError], which the inner [except socket.error] does not
    catch: the pass is left with that exception. *)
Theorem exceptional_client_at_eof_raises (t : tick) (w : world) (rest : list sock) :
  wf w -> sockets w = client :: rest ->
  ready_x t client = true -> ready_r t client = true ->
  recv_out t client = RecvBytes [] ->
  fst (relay_pass t w) = Raise ValueError.
Proof.
  intros Hw Hs Hx Hr He. rewrite relay_pass_unfold.
  set (w0 := snd (log (CSelect (sockets w)) w)).
  assert (W0 : wf w0) by exact Hw.
  assert (Hnd : NoDup (filter (ready_x t) (sockets w)))
    by (apply NoDup_filter; exact (proj1 Hw)).
  assert (Hin : forall x, In x (filter (ready_x t) (sockets w)) -> mem x (sockets w0) = true).
  { intros x Hi. apply filter_In in Hi. apply mem_In. exact (proj1 Hi). }
  assert (Hsl : In client (filter (ready_x t) (sockets w))).
  { apply filter_In. split; [rewrite Hs; now left | exact Hx]. }
  destruct (for_each_exceptional_ok _ w0 W0 Hnd Hin) as (R1 & W1 & _).
  destruct (exceptional_phase _ w0 client W0 Hnd Hin Hsl) as (C1 & _).
  unfold bind.
  destruct (for_each (filter (ready_x t) (sockets w)) handle_exceptional w0)
    as [[[]|ex] w1]; simpl in R1, W1, C1; try discriminate.
  rewrite Hs. simpl. rewrite Hr. simpl. unfold bind.
  pose proof (handle_readable_closed_client_eof t w1 W1 C1 He) as R2.
  destruct (handle_readable t client w1) as [[[]|ex] w2]; simpl in R2;
    [discriminate | exact R2].
Qed.

Lemma exceptional_client_at_eof_raises_witness :
  fst (relay_pass (mkTick (fun _ => true) (fun s => sock_eqb s client)
                     (fun _ => RecvBytes []) (fun _ => SentAll))
                  relay_after_chunk) = Raise ValueError.
Proof.
  exact (exceptional_client_at_eof_raises
           (mkTick (fun _ => true) (fun s => sock_eqb s client)
              (fun _ => RecvBytes []) (fun _ => SentAll))
           relay_after_chunk [backend] wf_relay_after_chunk eq_refl eq_refl eq_refl
           eq_refl).
Defined.

(* ------------------------------------------------------------------ *)
(** ** Forwarding order, both directions *)

(** X3. In both directions and for every schedule - readable and
    exceptional sockets in any order, failed reads, failed and partial
    writes - what the relay has sent to a socket is a prefix of what
    it has read from the partner, in the order read; nothing is
    duplicated or reordered, and nothing is missing as long as the
    socket read from is open. *)
Theorem relay_forwards_prefix_each_way (ts : list tick) (s : sock) (w : world) :
  wf w ->
  exists X Y,
    rcvd (snd (relay_loop ts w)) s = rcvd w s ++ X ++ Y
    /\ sent (snd (relay_loop ts w)) (partner s) = sent w (partner s) ++ X
    /\ (is_open (snd (relay_loop ts w)) s = true -> Y = []).
Proof.
  intros Hw. exact (forwarded_from_relay_loop s ts w Hw).
Qed.

Lemma relay_forwards_prefix_each_way_witness :
  exists X Y,
    rcvd (snd (relay_loop [read_tick backend ["o"%byte; "k"%byte];
                           write_error_tick backend ["n"%byte; "o"%byte] 1]
                          (relay_start []))) backend
    = rcvd (relay_start []) backend ++ X ++ Y
    /\ sent (snd (relay_loop [read_tick backend ["o"%byte; "k"%byte];
                              write_error_tick backend ["n"%byte; "o"%byte] 1]
                             (relay_start []))) (partner backend)
       = sent (relay_start []) (partner backend) ++ X
    /\ (is_open (snd (relay_loop [read_tick backend ["o"%byte; "k"%byte];
                                  write_error_tick backend ["n"%byte; "o"%byte] 1]
                                 (relay_start []))) backend = true -> Y = []).
Proof.
  exact (relay_forwards_prefix_each_way
           [read_tick backend ["o"%byte; "k"%byte];
            write_error_tick backend ["n"%byte; "o"%byte] 1]
           backend (relay_start []) (wf_relay_start [])).
Defined.

(* ------------------------------------------------------------------ *)
(** ** Idle passes (lines 52-53) *)

(** X8. However many passes time out in [select], the loop stays where it
    is: it keeps waiting, no socket is removed or closed, nothing is
    read or written, and the only calls made are the [select]s. *)
Theorem idle_passes_change_nothing (n : nat) (w : world) :
  sockets w <> [] ->
  fst (relay_loop (idle_passes n) w) = Ok LoopWaiting
  /\ sockets (snd (relay_loop (idle_passes n) w)) = sockets w
  /\ is_open (snd (relay_loop (idle_passes n) w)) = is_open w
  /\ sent (snd (relay_loop (idle_passes n) w)) = sent w
  /\ rcvd (snd (relay_loop (idle_passes n) w)) = rcvd w
  /\ trace (snd (relay_loop (idle_passes n) w))
     = trace w ++ repeat (CSelect (sockets w)) n.
Proof.
  revert w. induction n as [|n IH]; intros w Hs; unfold idle_passes; simpl repeat.
  - rewrite relay_loop_nil by assumption. simpl. rewrite app_nil_r. auto 10.
  - rewrite relay_loop_cons by assumption. unfold bind.
    rewrite (relay_pass_idle idle_tick w (fun _ => eq_refl) (fun _ => eq_refl)).
    destruct (IH (snd (log (CSelect (sockets w)) w)) Hs) as (R & S & O & T & C & L).
    fold (idle_passes n). rewrite R, S, O, T, C, L. simpl.
    rewrite <- app_assoc. simpl. auto 10.
Qed.

Lemma idle_passes_change_nothing_witness :
  fst (relay_loop (idle_passes 3) (relay_start [])) = Ok LoopWaiting.
Proof.
  exact (proj1 (idle_passes_change_nothing 3 (relay_start []) ltac:(discriminate))).
Defined.

(* ------------------------------------------------------------------ *)
(** ** More on the handshake forwarder (lines 33-41) *)

Lemma send_transmits e i d w :
  hs_send e i <> SendRaises ->
  fst (send e i d w) = Ok tt
  /\ sent (snd (send e i d w)) backend = sent w backend ++ accepted (hs_send e i) d
  /\ sent (snd (send e i d w)) client = sent w client.
Proof.
  intros H. unfold send, log, transmit, bind, accepted. simpl.
  destruct (hs_send e i); simpl; try congruence; auto.
Qed.

Lemma send_headers_transmits e h names :
  (forall i, hs_send e i <> SendRaises) ->
  forall i w,
    fst (send_headers e h i names w) = Ok tt
    /\ sent (snd (send_headers e h i names w)) backend
       = sent w backend
         ++ taken e i (map (fun name => PyStr.encode (header_line h name)) names)
    /\ sent (snd (send_headers e h i names w)) client = sent w client.
Proof.
  intros H. induction names as [|n names IH]; intros i w.
  - simpl. unfold ret. simpl. now rewrite app_nil_r.
  - change (send_headers e h i (n :: names) w)
      with ((send e i (PyStr.encode (header_line h n)) ;;
             send_headers e h (S i) names) w).
    destruct (send_transmits e i (PyStr.encode (header_line h n)) w (H i)) as (R & B & C).
    destruct (send e i (PyStr.encode (header_line h n)) w) as [[[]|ex] w1] eqn:E1;
      simpl in R, B, C; try discriminate.
    rewrite (bind_ok _ _ _ _ _ E1).
    destruct (IH (S i) w1) as (R1 & B1 & C1).
    split; [exact R1|]. split; [|congruence].
    rewrite B1, B. simpl. now rewrite app_assoc.
Qed.

Lemma taken_app e lines1 : forall i lines2,
  taken e i (lines1 ++ lines2)
  = taken e i lines1 ++ taken e (List.length lines1 + i) lines2.
Proof.
  induction lines1 as [|d lines1 IH]; intros i lines2; simpl; [reflexivity|].
  rewrite IH, <- app_assoc. now rewrite Nat.add_succ_r.
Qed.

(** X12. The value [send] returns is never looked at: as long as no [send]
    raises, the forwarder returns normally, and the backend has been
    sent, for each buffer in order, just the part the kernel accepted.
    A short [send] is not retried, its missing bytes are not sent
    later, and the lines after it follow as if nothing had happened. *)
Theorem forward_handshake_sends_what_is_accepted
    (r : request) (e : env) (w : world) :
  (forall i, hs_send e i <> SendRaises) ->
  fst (forward_handshake r e w) = Ok tt
  /\ sent (snd (forward_handshake r e w)) backend
     = sent w backend ++ taken e 0 (handshake_lines r)
  /\ sent (snd (forward_handshake r e w)) client = sent w client.
Proof.
  intros H. unfold forward_handshake, handshake_lines.
  destruct (send_transmits e 0 (PyStr.encode (request_line r)) w (H 0)) as (R & B & C).
  destruct (send e 0 (PyStr.encode (request_line r)) w) as [[[]|ex] w1] eqn:E1;
    simpl in R, B, C; try discriminate.
  rewrite (bind_ok _ _ _ _ _ E1).
  destruct (send_headers_transmits e (headers r) (Headers.iter (headers r)) H 1 w1)
    as (R1 & B1 & C1).
  destruct (send_headers e (headers r) 1 (Headers.iter (headers r)) w1)
    as [[[]|ex] w2] eqn:E2; simpl in R1, B1, C1; try discriminate.
  rewrite (bind_ok _ _ _ _ _ E2).
  destruct (send_transmits e (S (List.length (headers r))) (PyStr.encode PyStr.CRLF) w2
              (H _)) as (R2 & B2 & C2).
  split; [exact R2|]. split; [|congruence].
  rewrite B2, B1, B. cbn [taken]. rewrite taken_app. cbn [taken].
  unfold Headers.iter. rewrite !length_map, Nat.add_1_r, app_nil_r, <- !app_assoc.
  reflexivity.
Qed.

Lemma forward_handshake_sends_what_is_accepted_witness :
  sent (snd (forward_handshake req_ws
               {| connect_ok := true;
                  hs_send := fun i => match i with 0 => SendsOnly 3 | _ => SendsAll end;
                  ticks := []; reply_ok := true |}
               (entry true))) backend
  = sent (entry true) backend
    ++ taken {| connect_ok := true;
                hs_send := fun i => match i with 0 => SendsOnly 3 | _ => SendsAll end;
                ticks := []; reply_ok := true |} 0 (handshake_lines req_ws).
Proof.
  refine (proj1 (proj2 (forward_handshake_sends_what_is_accepted req_ws _ (entry true) _))).
  intros [|i]; discriminate.
Defined.

Lemma open_backend_streams e w :
  sent (snd (open_backend e w)) = sent w /\ rcvd (snd (open_backend e w)) = rcvd w.
Proof.
  unfold open_backend, new_backend, connect, log, set_open, bind, ret, raise. simpl.
  destruct (connect_ok e); auto.
Qed.

Lemma rcvd_send r0 e i d : preserves (fun w => rcvd w = r0) (send e i d).
Proof. unfold send. pres. Qed.

Lemma rcvd_forward_handshake r0 r e :
  preserves (fun w => rcvd w = r0) (forward_handshake r e).
Proof.
  assert (H : forall names i,
             preserves (fun w => rcvd w = r0) (send_headers e (headers r) i names)).
  { induction names as [|n names IH]; intros i; simpl.
    - apply preserves_ret.
    - apply preserves_bind; [apply rcvd_send | intros _; apply IH]. }
  unfold forward_handshake.
  apply preserves_bind; [apply rcvd_send | intros _].
  apply preserves_bind; [apply H | intros _]. apply rcvd_send.
Qed.

(** X11. From the first byte to the last, what the backend is sent for a
    request with distinct header names (connect and every [send]
    succeeding) is the handshake text of the request followed by a
    prefix of what was read from the client, in the order read -
    whatever happens in the relay and however the handler returns. *)
Theorem backend_stream_is_handshake_then_client_bytes
    (r : request) (e : env) (cc : bool) :
  connect_ok e = true -> (forall i, hs_send e i = SendsAll) ->
  distinct_names (headers r) ->
  exists X Y,
    sent (snd (handle_websocket r e (entry cc))) backend
    = PyStr.encode (handshake_text r) ++ X
    /\ rcvd (snd (handle_websocket r e (entry cc))) client = X ++ Y
    /\ (is_open (snd (handle_websocket r e (entry cc))) client = true -> Y = []).
Proof.
  intros Hc Hs Hd.
  pose proof (open_backend_connected e (entry cc) Hc) as R1.
  destruct (open_backend_streams e (entry cc)) as [S1 C1].
  destruct (open_backend e (entry cc)) as [[[]|ex1] w1] eqn:E1; simpl in R1, S1, C1;
    try discriminate.
  destruct (forward_handshake_distinct_names r e w1 Hd Hs) as (R2 & S2).
  pose proof (rcvd_forward_handshake (rcvd w1) r e w1 eq_refl) as C2.
  assert (O1 : both_open w1)
    by (apply (open_backend_ok e (entry cc) tt w1); [reflexivity | exact E1]).
  pose proof (both_open_forward_handshake r e w1 O1) as O2.
  destruct (forward_handshake r e w1) as [[[]|ex2] w2] eqn:E2; simpl in R2, S2, C2, O2;
    try discriminate.
  destruct (start_relay w2) as [[[]|ex3] w3] eqn:E3; [|discriminate].
  assert (W3 : wf w3) by (apply (start_relay_ok w2 tt w3 O2 E3)).
  assert (S3 : sent w3 = sent w2 /\ rcvd w3 = rcvd w2).
  { unfold start_relay, setblocking0, log, set_nonblocking, set_sockets, bind, ret in E3.
    simpl in E3. inversion E3; subst. auto. }
  destruct S3 as [S3 C3].
  assert (I : wf w3 /\ forwarded_from client (PyStr.encode (handshake_text r)) [] w3).
  { split; [exact W3|]. exists [], []. simpl. rewrite S3, C3, S2, C2, S1, C1. simpl.
    rewrite app_nil_r. auto. }
  apply (preserves_relay_loop_by_pass
           (fun v => wf v /\ forwarded_from client (PyStr.encode (handshake_text r)) [] v)
           (forwarded_from_relay_pass client _ _) (ticks e)) in I.
  destruct I as [_ (X & Y & HR & HS & HY)]. exists X, Y.
  unfold handle_websocket, try_except.
  rewrite (bind_ok _ _ _ _ _ E1), (bind_ok _ _ _ _ _ E2), (bind_ok _ _ _ _ _ E3).
  destruct (relay_loop (ticks e) w3) as [[x|ex4] w4] eqn:E4; simpl in HR, HS, HY.
  - rewrite (bind_ok _ _ _ _ _ E4). destruct x; simpl; auto.
  - rewrite (bind_raise _ _ _ _ _ E4). simpl.
    unfold send_error, set_close_connection, log, bind, ret, raise. simpl.
    destruct (reply_ok e); simpl; auto.
Qed.

Lemma backend_stream_is_handshake_then_client_bytes_witness :
  exists X Y,
    sent (snd (handle_websocket req_ws
                 (env_of [read_tick client ["h"%byte]; eof_tick backend]) (entry true)))
         backend
    = PyStr.encode (handshake_text req_ws) ++ X
    /\ rcvd (snd (handle_websocket req_ws
                    (env_of [read_tick client ["h"%byte]; eof_tick backend]) (entry true)))
            client = X ++ Y
    /\ (is_open (snd (handle_websocket req_ws
                        (env_of [read_tick client ["h"%byte]; eof_tick backend])
                        (entry true))) client = true -> Y = []).
Proof.
  apply (backend_stream_is_handshake_then_client_bytes req_ws
           (env_of [read_tick client ["h"%byte]; eof_tick backend]) true
           eq_refl (fun _ => eq_refl)).
  unfold distinct_names. vm_compute.
  repeat constructor; simpl; intuition discriminate.
Defined.

(* ------------------------------------------------------------------ *)
(** ** The encoding of the forwarded text (lines 35, 40) *)







(* ------------------------------------------------------------------ *)
(** ** One backend connection per request (lines 29-31) *)

Lemma grew_connected_log l0 c :
  after_connect_call c -> preserves (grew_connected l0) (log c).
Proof.
  intros Hc w (calls & E & F). exists (calls ++ [c]). simpl. split.
  - rewrite E. now rewrite app_assoc.
  - apply Forall_app. split; [assumption | repeat constructor; assumption].
Qed.

Ltac pres_connected :=
  repeat first
    [ apply preserves_ret
    | apply preserves_raise
    | apply preserves_bind; [|intros ?]
    | apply preserves_try; [|intros ?]
    | apply preserves_for_each; intros ?
    | apply preserves_get_other
    | apply grew_connected_log; exact I
    | match goal with
      | |- preserves _ (match ?x with _ => _ end) => destruct x
      end
    | (intros ? ?; assumption) ].

Lemma grew_connected_send l0 e i d : preserves (grew_connected l0) (send e i d).
Proof. unfold send. pres_connected. Qed.

Lemma grew_connected_send_headers l0 e h names :
  forall i, preserves (grew_connected l0) (send_headers e h i names).
Proof.
  induction names as [|n names IH]; intros i; simpl.
  - apply preserves_ret.
  - apply preserves_bind; [apply grew_connected_send | intros _; apply IH].
Qed.

Lemma open_backend_trace e w :
  trace (snd (open_backend e w)) = trace w ++ [CSocket; CConnect].
Proof.
  unfold open_backend, new_backend, connect, log, set_open, bind, ret, raise. simpl.
  destruct (connect_ok e); simpl; now rewrite <- app_assoc.
Qed.

(** X10. Every run of [handle_websocket] creates one socket and calls
    [connect] once, before anything else, and never again: no retry
    after a refused connection, no reconnect after a failure in the
    handshake or in the relay. *)
Theorem one_backend_connection_per_request (r : request) (e : env) (w : world) :
  exists calls,
    trace (snd (handle_websocket r e w)) = trace w ++ CSocket :: CConnect :: calls
    /\ Forall after_connect_call calls.
Proof.
  assert (F : forall v, grew_connected (trace w ++ [CSocket; CConnect]) v ->
              exists calls, trace v = trace w ++ CSocket :: CConnect :: calls
                            /\ Forall after_connect_call calls).
  { intros v (calls & E & Fc). exists calls. split; [|exact Fc].
    rewrite E, <- app_assoc. reflexivity. }
  assert (S : forall ex, preserves (grew_connected (trace w ++ [CSocket; CConnect]))
                           (send_error e 502 ;; ret (GatewayError ex))).
  { intros ex. unfold send_error, set_close_connection. pres_connected. }
  unfold handle_websocket, try_except.
  match goal with
  | |- context [bind (open_backend e) (fun _ => ?t)] => set (tail := t)
  end.
  assert (Ht : preserves (grew_connected (trace w ++ [CSocket; CConnect])) tail).
  { subst tail. apply preserves_bind.
    { unfold forward_handshake.
      apply preserves_bind; [apply grew_connected_send | intros _].
      apply preserves_bind; [apply grew_connected_send_headers | intros _].
      apply grew_connected_send. }
    intros _. apply preserves_bind; [unfold start_relay, setblocking0; pres_connected | intros _].
    apply preserves_bind; [|intros ?; pres_connected].
    apply preserves_relay_loop.
    - intros l. apply grew_connected_log. exact I.
    - intros s. unfold handle_exceptional, sockets_remove, close. pres_connected.
    - intros t s. unfold handle_readable, recv, sendall, sockets_remove, close. pres_connected. }
  pose proof (open_backend_trace e w) as T2.
  unfold bind at 1. destruct (open_backend e w) as [[[]|ex] w2]; simpl in T2.
  - assert (G2 : grew_connected (trace w ++ [CSocket; CConnect]) w2)
      by (exists []; rewrite T2, app_nil_r; auto).
    specialize (Ht w2 G2). destruct (tail w2) as [[x|ex] w3]; simpl in Ht |- *.
    + apply F. exact Ht.
    + apply F. exact (S ex w3 Ht).
  - apply F. refine (S ex w2 _). exists []. rewrite T2, app_nil_r. auto.
Qed.

(* ------------------------------------------------------------------ *)
(** ** Each socket is closed at most once (lines 55-77) *)

Ltac closed_once_done Kc Mc Kb Mb :=
  unfold closed_once; simpl; rewrite <- ?app_assoc; eexists; (split; [reflexivity|]);
  intros s; unfold closes in *; rewrite ?filter_app, ?length_app; simpl;
  unfold upd; destruct s; simpl;
  (split; [ first [ rewrite Kc | rewrite Kb ] | ]);
  repeat match goal with
         | |- context [?f client] => is_var f; destruct (f client)
         | |- context [?f backend] => is_var f; destruct (f backend)
         end;
  simpl in *; first [ reflexivity | lia | discriminate | tauto | auto ].

Lemma closed_once_handle_exceptional t0 o0 s :
  preserves (fun w => wf w /\ closed_once t0 o0 w) (handle_exceptional s).
Proof.
  intros w [Hw (calls & HT & HK)]. split; [apply wf_handle_exceptional; exact Hw|].
  destruct Hw as [Hnd Hm].
  destruct (HK client) as [Kc Mc]. destruct (HK backend) as [Kb Mb]. clear HK.
  wf_cases w Hnd Hm Hc Hb; subst;
    rewrite <- ?Hc in Kc, Mc; rewrite <- ?Hb in Kb, Mb;
    step_unfold; destruct s; simpl;
    closed_once_done Kc Mc Kb Mb.
Qed.

Lemma closed_once_handle_readable t0 o0 t s :
  preserves (fun w => wf w /\ closed_once t0 o0 w) (handle_readable t s).
Proof.
  intros w [Hw (calls & HT & HK)]. split; [apply wf_handle_readable; exact Hw|].
  destruct Hw as [Hnd Hm].
  destruct (HK client) as [Kc Mc]. destruct (HK backend) as [Kb Mb]. clear HK.
  wf_cases w Hnd Hm Hc Hb; subst;
    rewrite <- ?Hc in Kc, Mc; rewrite <- ?Hb in Kb, Mb;
    step_unfold; destruct s; rewrite <- ?Hc, <- ?Hb; simpl; break_oracle;
    rewrite <- ?Hc, <- ?Hb; simpl;
    try (match goal with |- context [match ?o with Some _ => _ | None => _ end] =>
           destruct o as [[|]|]; simpl end);
    rewrite <- ?Hc, <- ?Hb; simpl;
    closed_once_done Kc Mc Kb Mb.
Qed.

Lemma closed_once_select t0 o0 l :
  preserves (fun w => wf w /\ closed_once t0 o0 w) (log (CSelect l)).
Proof.
  intros w [Hw (calls & HT & HK)]. split; [exact Hw|].
  exists (calls ++ [CSelect l]). simpl. split; [rewrite HT; now rewrite app_assoc|].
  intros s. destruct (HK s) as [K M]. split; [|exact M].
  unfold closes in *. rewrite filter_app, length_app. simpl. lia.
Qed.

(** X2. During the relay [close] is called at most once on each socket:
    once on a socket that was open and ends closed, never on one that
    was closed already or stays open; and a closed socket is never
    opened again. *)
Theorem relay_closes_each_socket_once (ts : list tick) (w : world) :
  wf w ->
  exists calls,
    trace (snd (relay_loop ts w)) = trace w ++ calls
    /\ forall s,
         closes s calls
         = (if is_open w s && negb (is_open (snd (relay_loop ts w)) s) then 1 else 0)
         /\ (is_open (snd (relay_loop ts w)) s = true -> is_open w s = true).
Proof.
  intros Hw.
  assert (I : wf w /\ closed_once (trace w) (is_open w) w).
  { split; [exact Hw|]. exists []. rewrite app_nil_r. split; [reflexivity|].
    intros s. unfold closes. simpl. destruct (is_open w s); auto. }
  apply (preserves_relay_loop
           (fun v => wf v /\ closed_once (trace w) (is_open w) v)
           (closed_once_select _ _)
           (closed_once_handle_exceptional _ _)
           (closed_once_handle_readable _ _) ts) in I.
  exact (proj2 I).
Qed.

Lemma relay_closes_each_socket_once_witness :
  exists calls,
    trace (snd (relay_loop [read_tick client ["h"%byte]; both_eof_tick] (relay_start [])))
    = trace (relay_start []) ++ calls
    /\ forall s,
         closes s calls
         = (if is_open (relay_start []) s
               && negb (is_open (snd (relay_loop [read_tick client ["h"%byte]; both_eof_tick]
                                                 (relay_start []))) s)
            then 1 else 0)
         /\ (is_open (snd (relay_loop [read_tick client ["h"%byte]; both_eof_tick]
                                      (relay_start []))) s = true
             -> is_open (relay_start []) s = true).
Proof.
  exact (relay_closes_each_socket_once [read_tick client ["h"%byte]; both_eof_tick]
           (relay_start []) (wf_relay_start [])).
Defined.
